(** * mlightning: the loader's shared concurrency primitives and set-up code

    A shallow embedding of [src/threading.h] ([tools::WaitQueue],
    [tools::RoundRobin]) and of [src/loader.cpp]
    ([Loader::Settings::process], [Loader::setupLoad]), with the properties
    the specification states about them.

    Conventions.
    - [std::queue<Value>] is a [list Value]: [emplace] appends at the back,
      [front]/[pop] work at the head.
    - A container iterator is an index into the list; [end()] is the length.
    - [size_t] is 64 bits wide; the one unsigned subtraction of the source is
      written with its wrap-around.
    - Every member function of the two primitives runs under the object's
      mutex, so it is one atomic transition, except for a
      [condition_variable::wait], which splits a call into the part before
      the wait and the part after a wake-up. *)

From Stdlib Require Import String Ascii List Arith ZArith Bool Lia Permutation.
Import ListNotations.

Set Implicit Arguments.

(** The three things a member function can do to the condition variable. *)
Inductive Wake : Type :=
| NoWake
| NotifyOne
| NotifyAll.

(* ===================================================================== *)
(** ** [tools::WaitQueue] *)
(* ===================================================================== *)

Module WaitQueue.

Definition size_t_modulus : Z := 2 ^ 64.

Section WithValue.

Variable Value : Type.

Record t : Type := mk {
  _queueMaxSize : nat;
  _queue : list Value;
  _endWait : bool
}.

(** [WaitQueue(size_t queueMaxSize)] *)
Definition make (queueMaxSize : nat) : t :=
  mk queueMaxSize [] false.

Definition size (q : t) : nat := length (_queue q).

(** [full() { return _queue.size() >= _queueMaxSize; }] *)
Definition full (q : t) : bool := _queueMaxSize q <=? size q.

(** [_queue.emplace(value)] *)
Definition emplace (v : Value) (q : t) : t :=
  mk (_queueMaxSize q) (_queue q ++ [v]) (_endWait q).

(** The first half of [push]: under the lock, either the queue has room
    and the value is inserted with the wake chosen from the size found on
    entry, or the caller goes to wait on the condition variable. *)
Inductive PushOutcome : Type :=
| PushDone (q' : t) (w : Wake)
| PushWait.

Definition push (v : Value) (q : t) : PushOutcome :=
  if negb (full q) then
    let queueSize := size q in
    PushDone (emplace v q)
             (if queueSize =? 0 then NotifyOne
              else if queueSize =? 1 then NotifyAll
              else NoWake)
  else PushWait.

(** The second half of [push], run each time the waiting producer is woken:
    [wait(lock, pred)] re-tests [!full()] under the lock and keeps waiting
    ([None]) while it is false; once it is true the value is inserted and
    [push] returns. No notification is issued on this path. *)
Definition push_resume (v : Value) (q : t) : option t :=
  if negb (full q) then Some (emplace v q) else None.

(** [tolimit = _queueMaxSize - _queue.size()], an unsigned subtraction. *)
Definition tolimit (q : t) : Z :=
  (Z.of_nat (_queueMaxSize q) - Z.of_nat (size q)) mod size_t_modulus.

(** [pop]: the wait predicate is [!_queue.empty() || _endWait]; the same
    test is made on entry and after every wake-up, so one function serves
    both. *)
Inductive PopOutcome : Type :=
| PopWait
| PopFalse
| PopTrue (value : Value) (q' : t) (w : Wake).

Definition empty (q : t) : bool :=
  match _queue q with [] => true | _ :: _ => false end.

Definition pop (q : t) : PopOutcome :=
  if negb (empty q) || _endWait q then
    match _queue q with
    | [] => PopFalse
    | front :: rest =>
        let tl := tolimit q in
        PopTrue front
                (mk (_queueMaxSize q) rest (_endWait q))
                (if (tl =? 0)%Z then NotifyOne
                 else if (tl =? 1)%Z then NotifyAll
                 else NoWake)
    end
  else PopWait.

(** [endWait() { _endWait = true; _queueNotify.notify_all(); }] *)
Definition endWait (q : t) : t * Wake :=
  (mk (_queueMaxSize q) (_queue q) true, NotifyAll).

(** [n] successive calls of [pop] by one consumer, stopping at the first
    call that does not return: the outcomes seen and the queue left. *)
Fixpoint pops (n : nat) (q : t) : list (option Value) * t :=
  match n with
  | O => ([], q)
  | S n' =>
      match pop q with
      | PopWait => ([], q)
      | PopFalse => let (rs, q') := pops n' q in (None :: rs, q')
      | PopTrue v q1 _ => let (rs, q') := pops n' q1 in (Some v :: rs, q')
      end
  end.

(** *** Threads calling into one queue

    A thread runs a list of calls in order. At each moment it is either
    between calls or parked inside [push] or [pop]. A schedule is the list
    of thread numbers in the order in which they hold the mutex; a parked
    thread that is scheduled re-tests its wait predicate (a wake-up,
    spurious or not). *)
Inductive call : Type :=
| CallPush (v : Value)
| CallPop
| CallEndWait.

Inductive pc : Type :=
| Running
| InPushWait (v : Value)
| InPopWait.

Record thread : Type := mkThread {
  at_pc : pc;
  todo : list call;
  popped : list (option Value)
}.

(** What the observer of the mutex sees: every insertion and removal with
    the size found before it and the notification issued. *)
Inductive event : Type :=
| EvPush (size_before : nat) (w : Wake)
| EvPushAfterWait (size_before : nat)
| EvPop (size_before : nat) (w : Wake)
| EvPopFalse
| EvEndWait.

Record system : Type := mkSystem {
  queue : t;
  threads : list thread;
  trace : list event
}.

Definition init (queueMaxSize : nat) (programs : list (list call)) : system :=
  mkSystem (make queueMaxSize)
           (map (fun p => mkThread Running p []) programs)
           [].

Fixpoint set_nth {A : Type} (i : nat) (x : A) (l : list A) : list A :=
  match l, i with
  | [], _ => []
  | _ :: l', O => x :: l'
  | y :: l', S i' => y :: set_nth i' x l'
  end.

Definition pop_step (th : thread) (rest : list call) (q : t)
  : t * thread * list event :=
  match pop q with
  | PopWait => (q, mkThread InPopWait rest (popped th), [])
  | PopFalse => (q, mkThread Running rest (popped th ++ [None]), [EvPopFalse])
  | PopTrue v q' w =>
      (q', mkThread Running rest (popped th ++ [Some v]), [EvPop (size q) w])
  end.

Definition thread_step (th : thread) (q : t) : t * thread * list event :=
  match at_pc th with
  | Running =>
      match todo th with
      | [] => (q, th, [])
      | CallPush v :: rest =>
          match push v q with
          | PushDone q' w =>
              (q', mkThread Running rest (popped th), [EvPush (size q) w])
          | PushWait => (q, mkThread (InPushWait v) rest (popped th), [])
          end
      | CallPop :: rest => pop_step th rest q
      | CallEndWait :: rest =>
          (fst (endWait q), mkThread Running rest (popped th), [EvEndWait])
      end
  | InPushWait v =>
      match push_resume v q with
      | Some q' =>
          (q', mkThread Running (todo th) (popped th),
           [EvPushAfterWait (size q)])
      | None => (q, th, [])
      end
  | InPopWait => pop_step th (todo th) q
  end.

Definition step (i : nat) (s : system) : system :=
  match nth_error (threads s) i with
  | None => s
  | Some th =>
      let '(q', th', evs) := thread_step th (queue s) in
      mkSystem q' (set_nth i th' (threads s)) (trace s ++ evs)
  end.

Definition run (schedule : list nat) (s : system) : system :=
  fold_left (fun s i => step i s) schedule s.

(** The size never passes the capacity, and the capacity never changes. *)
Definition bounded (N : nat) (q : t) : Prop :=
  _queueMaxSize q = N /\ size q <= N.

(** The wake a push is said to issue when it finds [size_before]
    elements, and the wake a pop is said to issue on a queue of capacity
    [N]. *)
Definition push_policy (size_before : nat) : Wake :=
  if size_before =? 0 then NotifyOne
  else if size_before =? 1 then NotifyAll
  else NoWake.

Definition pop_policy (N size_before : nat) : Wake :=
  if size_before =? N then NotifyOne
  else if S size_before =? N then NotifyAll
  else NoWake.

(** The wake an event of the trace carries. *)
Definition wake_issued (e : event) : Wake :=
  match e with
  | EvPush _ w => w
  | EvPushAfterWait _ => NoWake
  | EvPop _ w => w
  | EvPopFalse => NoWake
  | EvEndWait => NotifyAll
  end.

(** The policy read over every insertion and every removal. *)
Definition policy_every_push_and_pop (N : nat) (e : event) : Prop :=
  match e with
  | EvPush sz _ | EvPushAfterWait sz => wake_issued e = push_policy sz
  | EvPop sz _ => wake_issued e = pop_policy N sz
  | EvPopFalse | EvEndWait => True
  end.

(** The policy read over the insertions of pushes that found room on
    entry and over the removals; a push that had to wait, and a pop that
    finds nothing, issue no wake. *)
Definition policy_on_entry (N : nat) (e : event) : Prop :=
  match e with
  | EvPush sz _ => wake_issued e = push_policy sz
  | EvPop sz _ => wake_issued e = pop_policy N sz
  | EvPushAfterWait _ | EvPopFalse => wake_issued e = NoWake
  | EvEndWait => True
  end.

End WithValue.

Arguments PushWait {Value}.
Arguments PopWait {Value}.
Arguments PopFalse {Value}.
Arguments CallPop {Value}.
Arguments CallEndWait {Value}.
Arguments Running {Value}.
Arguments InPopWait {Value}.

End WaitQueue.

(* ===================================================================== *)
(** ** [tools::RoundRobin] *)
(* ===================================================================== *)

Module RoundRobin.

Section WithValue.

Variable Value : Type.

(** [operator==] on [Value], as [std::remove] uses it. *)
Variable Value_eq_dec : forall x y : Value, {x = y} + {x <> y}.

Record t : Type := mk {
  _container : list Value;
  _position : nat
}.

(** [init() { _position = _container.begin(); }] *)
Definition init (rr : t) : t := mk (_container rr) 0.

(** [RoundRobin(Container &&container)] *)
Definition make (container : list Value) : t := init (mk container 0).

(** [next]: [None] is the [false] of the source. The dereference
    [*_position] is a list lookup; it is in range whenever the position
    is, which [position_ok] below states. *)
Definition next (rr : t) : option Value * t :=
  match _container rr with
  | [] => (None, rr)
  | _ :: _ =>
      let p := S (_position rr) in
      let p' := if p =? length (_container rr) then 0 else p in
      (nth_error (_container rr) p', mk (_container rr) p')
  end.

(** [remove]: [std::remove] followed by [erase] drops every element equal
    to [value] and keeps the order of the others; then [init()]. *)
Definition remove (value : Value) (rr : t) : t :=
  init (mk (filter (fun y => if Value_eq_dec y value then false else true)
                   (_container rr))
           (_position rr)).

(** The position designates an element, or the container is empty and the
    position is [begin() = end()]. *)
Definition position_ok (rr : t) : Prop :=
  _position rr < length (_container rr) \/
  (_container rr = [] /\ _position rr = 0).

(** The results of [k] consecutive calls of [next]. *)
Fixpoint nexts (k : nat) (rr : t) : list (option Value) :=
  match k with
  | O => []
  | S k' => let (r, rr') := next rr in r :: nexts k' rr'
  end.

(** A client's use of the cursor after construction. *)
Inductive op : Type :=
| OpNext
| OpRemove (value : Value).

(** The results of the [next] calls among [ops], in order. *)
Fixpoint results (ops : list op) (rr : t) : list (option Value) :=
  match ops with
  | [] => []
  | OpNext :: ops' => let (r, rr') := next rr in r :: results ops' rr'
  | OpRemove v :: ops' => results ops' (remove v rr)
  end.

End WithValue.

(** Where [++_position], with the wrap at [end()], lands in a container of
  [n] elements. *)
Definition advance (n p : nat) : nat := if S p =? n then 0 else S p.

(** How far the cursor at [p] is past the element at [i], going round a
  ring of [n]. *)
Definition past (n i p : nat) : nat := if i <=? p then p - i else p + n - i.

End RoundRobin.

(* ===================================================================== *)
(** ** [loader::Loader]: settings and cluster set-up *)
(* ===================================================================== *)

(** How a function of [loader.cpp] can end: it returns, it calls
    [exit(EXIT_FAILURE)] after writing one message to [std::cerr], a driver
    call throws, or an [assert] fails. *)
Inductive outcome (Msg A : Type) : Type :=
| Return (a : A)
| Exit (msg : Msg)
| Throws
| AssertFails.

Arguments Return {Msg A} a.
Arguments Exit {Msg A} msg.
Arguments Throws {Msg A}.
Arguments AssertFails {Msg A}.

Definition bind {Msg A B : Type} (m : outcome Msg A) (f : A -> outcome Msg B)
  : outcome Msg B :=
  match m with
  | Return a => f a
  | Exit msg => Exit msg
  | Throws => Throws
  | AssertFails => AssertFails
  end.

Declare Scope outcome_scope.
Delimit Scope outcome_scope with outcome.
Notation "x <- m ;; k" := (bind m (fun x => k))
  (at level 61, m at next level, right associativity) : outcome_scope.
Notation "' p <- m ;; k" := (bind m (fun x => let p := x in k))
  (at level 61, p pattern, m at next level, right associativity)
  : outcome_scope.

Module Bson.

(** The element kinds of the driver that [loader.cpp] tells apart. *)
Inductive Value : Type :=
| NumberInt (n : Z)
| NumberLong (n : Z)
| NumberDouble
| String (s : string)
| Other.

Record Element : Type := mkElement {
  fieldName : string;
  value : Value
}.

Definition Obj : Type := list Element.

(** [BSONElement::valueStringData()]. For an element that is not a string
    the driver reads whatever bytes follow the first four of the value;
    they never spell a direction keyword, which the empty text stands
    for. *)
Definition valueStringData (e : Element) : string :=
  match value e with
  | String s => s
  | _ => EmptyString
  end.

(** [BSONElement::Int()] checks the type and throws unless it is a 32-bit
    integer. *)
Definition Int {Msg : Type} (e : Element) : outcome Msg Z :=
  match value e with
  | NumberInt n => Return n
  | _ => Throws
  end.

(** [BSONElement::String()] checks the type in the same way. *)
Definition String_ {Msg : Type} (e : Element) : outcome Msg string :=
  match value e with
  | String s => Return s
  | _ => Throws
  end.

Definition isNumber (e : Element) : bool :=
  match value e with
  | NumberInt _ | NumberLong _ | NumberDouble => true
  | _ => false
  end.

End Bson.

(** Fixed-width arithmetic of [int] and [unsigned]. *)
Definition uint_modulus : Z := 2 ^ 32.
Definition to_unsigned (x : Z) : Z := (x mod uint_modulus)%Z.
Definition to_int (x : Z) : Z :=
  let u := (x mod uint_modulus)%Z in
  if (u <? 2 ^ 31)%Z then u else (u - uint_modulus)%Z.
Definition size_t_minus_one : Z := (2 ^ 64 - 1)%Z.

(** [std::abs] on an [int]. The absolute value of the least [int] is not
    an [int]; what comes out is the least [int] again, as the wrap-around
    gives it. *)
Definition std_abs (x : Z) : Z := to_int (Z.abs x).

Module Settings.

Import Bson.

(** What [process] takes from outside [loader.cpp]: the driver's JSON
    parser ([None] when it throws), the machine's
    [std::thread::hardware_concurrency()], the batch factory's
    [verifyKey], the driver's [uriStart] and the error text of
    [ConnectionString::parse] (empty on success). *)
Record Env : Type := mkEnv {
  fromjson : string -> option Obj;
  hardware_concurrency : Z;
  verifyKey : string -> bool;
  uriStart : string;
  ConnectionString_parse : string -> string
}.

(** What is written to [std::cerr] before [exit(EXIT_FAILURE)]. *)
Inductive Stderr : Type :=
| NoShardKey
    (* No shard key for sharded setup *)
| UnknownKeyValue (key : Element)
    (* Unknown value for key: <key> / Values are 1, -1, hashed *)
| HashedSingleFieldOnly
    (* MongoDB currently only supports hashing of a single field *)
| NoSuchQueueType (name : string)
    (* No such queue type: <name> *)
| NotANumber (name text : string)
    (* <name> is not a number: <text> *)
| NoLoadQueues (json : string)
    (* No load queues were created from: <json> *)
| ThreadsLessThanOne (hardware minus : Z)
    (* Request hardware threads(<hardware>) minus <minus>.
       That is less than 1.  Exiting *)
| ConnectionStringError (error : string).
    (* Unable to parse connection string: <error> *)

(** The two members that point at [loadQueues]. *)
Inductive LoadQueuesPtr : Type :=
| Unset
| AddressOfLoadQueues.

Record EndPointSettings : Type := mkEndPointSettings {
  startImmediate : bool;
  directLoad : bool
}.

Record DispatchSettings : Type := mkDispatchSettings {
  dispatch_sortIndex : Obj;
  dispatch_workPath : string;
  dispatch_directLoad : bool;
  dispatch_loadQueues : LoadQueuesPtr
}.

Record BatcherSettings : Type := mkBatcherSettings {
  batcher_sortIndex : Obj;
  batcher_loadQueues : LoadQueuesPtr
}.

Record t : Type := mk {
  endPointSettings : EndPointSettings;
  dispatchSettings : DispatchSettings;
  batcherSettings : BatcherSettings;
  indexHas_id : bool;
  indexPos_id : Z;
  sharded : bool;
  shardKeyJson : string;
  shardKeysBson : Obj;
  hashed : bool;
  shardKeyFields : list string;
  add_id : bool;
  workPath : string;
  loadQueueJson : string;
  loadQueueBson : Obj;
  loadQueues : list string;
  chunksPerShard : nat;
  threads : Z;
  stopBalancer : bool;
  connstr : string;
  cs : string;
  (* read by [Loader::setupLoad] only *)
  database : string;
  ns : string;
  dropDb : bool;
  dropColl : bool;
  dropIndexes : bool;
  shardKeyUnique : bool
}.

Definition lift {A : Type} (o : option A) : outcome Stderr A :=
  match o with
  | Some a => Return a
  | None => Throws
  end.

Local Open Scope outcome_scope.

(** The members the loop over the shard key writes, and its [count]. *)
Record KeyScan : Type := mkKeyScan {
  scan_hashed : bool;
  scan_shardKeyFields : list string;
  scan_indexHas_id : bool;
  scan_indexPos_id : Z;
  scan_count : nat
}.

(** The body of [for (BSONObj::iterator i(shardKeysBson); i.more();)]. *)
Fixpoint scanShardKeys (keys : Obj) (st : KeyScan) : outcome Stderr KeyScan :=
  match keys with
  | [] => Return st
  | key :: rest =>
      hashed' <-
        (if String.eqb (valueStringData key) "hashed"%string
         then Return true
         else
           i <- Int key ;;
           if negb (i =? 1)%Z && negb (i =? -1)%Z
           then Exit (UnknownKeyValue key)
           else Return (scan_hashed st)) ;;
      let fields' := scan_shardKeyFields st ++ [fieldName key] in
      let first_id :=
        negb (scan_indexHas_id st) && String.eqb (fieldName key) "_id"%string in
      scanShardKeys rest
        (mkKeyScan hashed' fields'
                   (if first_id then true else scan_indexHas_id st)
                   (if first_id then Z.of_nat (scan_count st)
                    else scan_indexPos_id st)
                   (S (scan_count st)))
  end.

(** The body of [for (BSONObj::iterator i(loadQueueBson); i.more();)]. *)
Fixpoint scanLoadQueues (E : Env) (loads : Obj) (queues : list string)
  : outcome Stderr (list string) :=
  match loads with
  | [] => Return queues
  | load :: rest =>
      if negb (verifyKey E (fieldName load))
      then Exit (NoSuchQueueType (fieldName load))
      else if negb (isNumber load)
      then (text <- String_ load ;; Exit (NotANumber (fieldName load) text))
      else
        n <- Int load ;;
        scanLoadQueues E rest
          (queues ++ repeat (fieldName load) (Z.to_nat n))
  end.

(** [int threads] after lines 97 to 107. *)
Definition resolveThreads (E : Env) (threads0 : Z) : outcome Stderr Z :=
  let originalThreads := threads0 in
  if (threads0 =? 0)%Z
  then Return (to_int (to_unsigned (hardware_concurrency E * 2)%Z))
  else if (threads0 <? 0)%Z
  then
    let threads1 :=
      to_int (to_unsigned (hardware_concurrency E + to_unsigned threads0)%Z) in
    if (threads1 <? 1)%Z
    then Exit (ThreadsLessThanOne (hardware_concurrency E)
                                  (std_abs originalThreads))
    else Return threads1
  else Return threads0.

(** Lines 40 to 66: the shard key is read only for a sharded load. The
    result is [shardKeysBson] and the members the loop has written. *)
Definition processShardKey (E : Env) (s : t) : outcome Stderr (Obj * KeyScan) :=
  let scan0 :=
    mkKeyScan (hashed s) (shardKeyFields s) false size_t_minus_one 0 in
  if sharded s then
    if String.eqb (shardKeyJson s) EmptyString
    then Exit NoShardKey
    else
      bson <- lift (fromjson E (shardKeyJson s)) ;;
      scan <- scanShardKeys bson scan0 ;;
      if scan_hashed scan && (1 <? scan_count scan)
      then Exit HashedSingleFieldOnly
      else Return (bson, scan)
  else Return (shardKeysBson s, scan0).

(** Lines 75 to 92: [loadQueueBson] and [loadQueues]. *)
Definition processLoadQueues (E : Env) (s : t)
  : outcome Stderr (Obj * list string) :=
  loadQueueBson' <- lift (fromjson E (loadQueueJson s)) ;;
  loadQueues' <- scanLoadQueues E loadQueueBson' (loadQueues s) ;;
  if length loadQueues' <? 1
  then Exit (NoLoadQueues (loadQueueJson s))
  else Return (loadQueueBson', loadQueues').

(** Lines 109 to 119, and the members as [process] leaves them. The
    assignments of lines 36, 68 to 73 and 93 to 95 cannot fail; they are
    gathered here, each member with the value its last assignment gave
    it. *)
Definition processConnection (E : Env) (s : t)
    (key : Obj * KeyScan) (queues : Obj * list string) (threads' : Z)
  : outcome Stderr t :=
  let '(shardKeysBson', scan) := key in
  let '(loadQueueBson', loadQueues') := queues in
  let endPointSettings' :=
    mkEndPointSettings false (directLoad (endPointSettings s)) in
  let add_id' := if negb (scan_indexHas_id scan) then false else add_id s in
  let chunksPerShard' := length loadQueues' in
  let stopBalancer' :=
    if directLoad endPointSettings' then true else stopBalancer s in
  let connstr' :=
    if negb (String.eqb
               (substring 0 (String.length (uriStart E)) (connstr s))
               (uriStart E))
    then String.append (uriStart E) (connstr s)
    else connstr s in
  let error := ConnectionString_parse E connstr' in
  if negb (String.eqb error EmptyString)
  then Exit (ConnectionStringError error)
  else
    Return
      {| endPointSettings := endPointSettings';
         dispatchSettings :=
           mkDispatchSettings shardKeysBson' (workPath s)
                              (directLoad endPointSettings')
                              AddressOfLoadQueues;
         batcherSettings :=
           mkBatcherSettings shardKeysBson' AddressOfLoadQueues;
         indexHas_id := scan_indexHas_id scan;
         indexPos_id := scan_indexPos_id scan;
         sharded := sharded s;
         shardKeyJson := shardKeyJson s;
         shardKeysBson := shardKeysBson';
         hashed := scan_hashed scan;
         shardKeyFields := scan_shardKeyFields scan;
         add_id := add_id';
         workPath := workPath s;
         loadQueueJson := loadQueueJson s;
         loadQueueBson := loadQueueBson';
         loadQueues := loadQueues';
         chunksPerShard := chunksPerShard';
         threads := threads';
         stopBalancer := stopBalancer';
         connstr := connstr';
         cs := connstr';
         database := database s;
         ns := ns s;
         dropDb := dropDb s;
         dropColl := dropColl s;
         dropIndexes := dropIndexes s;
         shardKeyUnique := shardKeyUnique s |}.

(** [Loader::Settings::process()] *)
Definition process (E : Env) (s : t) : outcome Stderr t :=
  key <- processShardKey E s ;;
  queues <- processLoadQueues E s ;;
  threads' <- resolveThreads E (threads s) ;;
  processConnection E s key queues threads'.

(** *** The vocabulary of the specification *)

Definition is_hashed (e : Element) : bool :=
  String.eqb (valueStringData e) "hashed"%string.

Definition is_direction (e : Element) : bool :=
  match value e with
  | NumberInt n => (n =? 1)%Z || (n =? -1)%Z
  | _ => false
  end.

Definition names_id (e : Element) : bool :=
  String.eqb (fieldName e) "_id"%string.

Definition field_ok (e : Element) : bool := is_hashed e || is_direction e.

(** Every field is hashed or has a direction, and at most one field is
    hashed. *)
Definition at_most_one_hashed (keys : Obj) : bool :=
  forallb field_ok keys &&
  (length (filter is_hashed keys) <=? 1).

(** Every field is hashed or has a direction, and a key with a hashed
    field has no other field. *)
Definition hashed_field_stands_alone (keys : Obj) : bool :=
  forallb field_ok keys &&
  (negb (existsb is_hashed keys) || (length keys <=? 1)).

(** The thread count in the words of the specification: twice the
    hardware concurrency for 0; the hardware concurrency minus the
    absolute value for a negative number, an error when that is below 1;
    a positive number as it is. The specification does not say what the
    error shows; it is given the two numbers the program prints, the
    second of which is [std::abs] of the configured [int]. *)
Definition threads_as_specified (hardware configured : Z)
  : outcome Stderr Z :=
  if (configured =? 0)%Z then Return (2 * hardware)%Z
  else if (configured <? 0)%Z then
    if (hardware - Z.abs configured <? 1)%Z
    then Exit (ThreadsLessThanOne hardware (std_abs configured))
    else Return (hardware - Z.abs configured)%Z
  else Return configured.

End Settings.

Module Loader.

(** What [setupLoad] learns from the cluster facade [_mCluster] and from
    the connection: the answers of the calls it makes. *)
Record Cluster : Type := mkCluster {
  isSharded : bool;
  (* the value returned by [stopBalancerWait(std::chrono::seconds(120))] *)
  stopBalancerWait : bool;
  (* the text [cs.connect(error)] leaves in [error] *)
  connect_error : string;
  enableSharding : bool;
  (* [info.getIntField("ok")] after [enableSharding] *)
  enableSharding_info_ok : Z;
  (* the value returned by either overload of [shardCollection] *)
  shardCollection : bool;
  (* [shards().size()] *)
  shards_size : nat
}.

Inductive Stderr : Type :=
| NoShardedMetadata
    (* Unable to load sharded cluster metadata, this is required for a
       sharded cluster load *)
| UnableToConnect (error : string)
    (* Unable to connect to database: <error> *)
| UnableToStopBalancer
    (* Unable to stop the balancer *)
| ShardingDbFailed
    (* Sharding db failed: <info> *)
| ShardingCollectionFailed.
    (* Sharding collection failed: <info> / Exiting *)

(** The calls with an effect outside the process, and the lines written to
    [std::cerr] by code that then carries on. *)
Inductive action : Type :=
| BalancerStop
| DropDatabase (database : string)
| DropCollection (ns : string)
| DropIndexes (ns : string)
| EnableSharding (database : string)
| Cerr (msg : Stderr)
| ShardCollection (ns : string) (presplit : option Z)
| WaitForChunksPerShard (ns : string) (chunksPerShard : nat).

(** [Loader::setupLoad()], which the constructor of [Loader] runs before
    anything else exists: the actions taken, in order, and how it ends. *)
Definition setupLoad (C : Cluster) (s : Settings.t)
  : list action * outcome Stderr unit :=
  if Settings.sharded s && negb (isSharded C)
  then ([], Exit NoShardedMetadata)
  else if negb (isSharded C)
  then ([], Throws)
  else
    let a1 := if Settings.stopBalancer s then [BalancerStop] else [] in
    if negb (String.eqb (connect_error C) EmptyString)
    then (a1, Exit (UnableToConnect (connect_error C)))
    else
      let a2 :=
        a1 ++
        (if Settings.dropDb s then [DropDatabase (Settings.database s)]
         else if Settings.dropColl s then [DropCollection (Settings.ns s)]
         else if Settings.dropIndexes s then [DropIndexes (Settings.ns s)]
         else []) in
      if isSharded C && Settings.stopBalancer s && stopBalancerWait C
      then (a2, Exit UnableToStopBalancer)
      else if Settings.sharded s
      then
        let a3 :=
          a2 ++ [EnableSharding (Settings.database s)] ++
          (if negb (enableSharding C)
           then if negb (enableSharding_info_ok C =? 0)%Z
                then [Cerr ShardingDbFailed]
                else []
           else []) in
        if Settings.chunksPerShard s =? 0
        then (a3, AssertFails)
        else if Settings.hashed s
        then
          let totalChunks :=
            to_int (Z.of_nat (Settings.chunksPerShard s) *
                    Z.of_nat (shards_size C)) in
          let a4 := a3 ++ [ShardCollection (Settings.ns s) (Some totalChunks)] in
          if negb (shardCollection C)
          then (a4, Exit ShardingCollectionFailed)
          else (a4 ++ [WaitForChunksPerShard (Settings.ns s)
                                             (Settings.chunksPerShard s)],
                Return tt)
        else
          let a4 := a3 ++ [ShardCollection (Settings.ns s) None] in
          if negb (shardCollection C)
          then (a4, Exit ShardingCollectionFailed)
          else (a4, Return tt)
      else (a2, Return tt).

(** The same cluster with another answer to [enableSharding]. *)
Definition answer_enableSharding (answer : bool) (C : Cluster) : Cluster :=
  mkCluster (isSharded C) (stopBalancerWait C) (connect_error C)
            answer (enableSharding_info_ok C)
            (shardCollection C) (shards_size C).

End Loader.

(** Concrete inputs on which the functions above are run below. *)
Module Samples.

Import Bson.

Definition hashedCompoundKey : Obj :=
  [mkElement "user_id" (String "hashed"); mkElement "region" (NumberInt 1)].

Definition idKey : Obj := [mkElement "_id" (NumberInt 1)].

Definition regionKey : Obj := [mkElement "region" (NumberInt 1)].

Definition oneRamQueue : Obj := [mkElement "ram" (NumberInt 1)].

(** A machine with [hardware] hardware threads, a parser that knows four
    documents, the three queue types of the specification, and a
    connection-string parser that accepts everything. *)
Definition env (hardware : Z) : Settings.Env :=
  Settings.mkEnv
    (fun json =>
       if String.eqb json "{user_id:'hashed',region:1}" then Some hashedCompoundKey
       else if String.eqb json "{_id:1}" then Some idKey
       else if String.eqb json "{region:1}" then Some regionKey
       else if String.eqb json "{ram:1}" then Some oneRamQueue
       else None)
    hardware
    (fun key => String.eqb key "ram" || String.eqb key "direct"
                || String.eqb key "disk")
    "mongodb://"
    (fun _ => EmptyString).

(** A sharded load with the given key, thread count and [add_id], as the
    command line leaves it. *)
Definition settings (shardKeyJson : string) (threads : Z) (add_id : bool)
  : Settings.t :=
  {| Settings.endPointSettings := Settings.mkEndPointSettings true false;
     Settings.dispatchSettings :=
       Settings.mkDispatchSettings [] EmptyString false Settings.Unset;
     Settings.batcherSettings := Settings.mkBatcherSettings [] Settings.Unset;
     Settings.indexHas_id := false;
     Settings.indexPos_id := 0%Z;
     Settings.sharded := true;
     Settings.shardKeyJson := shardKeyJson;
     Settings.shardKeysBson := [];
     Settings.hashed := false;
     Settings.shardKeyFields := [];
     Settings.add_id := add_id;
     Settings.workPath := "/tmp";
     Settings.loadQueueJson := "{ram:1}";
     Settings.loadQueueBson := [];
     Settings.loadQueues := [];
     Settings.chunksPerShard := 0;
     Settings.threads := threads;
     Settings.stopBalancer := false;
     Settings.connstr := "localhost:27017";
     Settings.cs := EmptyString;
     Settings.database := "test";
     Settings.ns := "test.docs";
     Settings.dropDb := false;
     Settings.dropColl := false;
     Settings.dropIndexes := false;
     Settings.shardKeyUnique := false |}.

(** What [process] makes of [settings "{region:1}" 4 false] on [env 4]. *)
Definition processedRegionSettings : Settings.t :=
  {| Settings.endPointSettings := Settings.mkEndPointSettings false false;
     Settings.dispatchSettings :=
       Settings.mkDispatchSettings regionKey "/tmp" false
                                   Settings.AddressOfLoadQueues;
     Settings.batcherSettings :=
       Settings.mkBatcherSettings regionKey Settings.AddressOfLoadQueues;
     Settings.indexHas_id := false;
     Settings.indexPos_id := size_t_minus_one;
     Settings.sharded := true;
     Settings.shardKeyJson := "{region:1}";
     Settings.shardKeysBson := regionKey;
     Settings.hashed := false;
     Settings.shardKeyFields := ["region"%string];
     Settings.add_id := false;
     Settings.workPath := "/tmp";
     Settings.loadQueueJson := "{ram:1}";
     Settings.loadQueueBson := oneRamQueue;
     Settings.loadQueues := ["ram"%string];
     Settings.chunksPerShard := 1;
     Settings.threads := 4%Z;
     Settings.stopBalancer := false;
     Settings.connstr := "mongodb://localhost:27017";
     Settings.cs := "mongodb://localhost:27017";
     Settings.database := "test";
     Settings.ns := "test.docs";
     Settings.dropDb := false;
     Settings.dropColl := false;
     Settings.dropIndexes := false;
     Settings.shardKeyUnique := false |}.

(** A sharded cluster whose [enableSharding] fails with [ok = 1] and whose
    other calls succeed. *)
Definition clusterEnableShardingFails : Loader.Cluster :=
  Loader.mkCluster true false EmptyString false 1%Z true 2.

End Samples.

(** Runs of calls on one cursor. *)
Module RoundRobinRun.

Section WithValue.

Variable Value : Type.

(** The cursor that [k] consecutive calls of [next] leave. *)
Fixpoint after (k : nat) (rr : RoundRobin.t Value) : RoundRobin.t Value :=
  match k with
  | O => rr
  | S k' => after k' (snd (RoundRobin.next rr))
  end.

End WithValue.

End RoundRobinRun.

(** Where the values of a run of threads on one queue are. *)
Module WaitQueueAccounts.

Import WaitQueue.

Section WithValue.

Variable Value : Type.

(** The values a program pushes, in order. *)
Fixpoint pushes_of (program : list (call Value)) : list Value :=
  match program with
  | [] => []
  | CallPush v :: rest => v :: pushes_of rest
  | _ :: rest => pushes_of rest
  end.

(** The values among the results of a thread's pops, in order. *)
Fixpoint values (results : list (option Value)) : list Value :=
  match results with
  | [] => []
  | Some v :: rest => v :: values rest
  | None :: rest => values rest
  end.

(** The values a thread has not inserted yet: the one it is parked with,
    if any, and those its program still pushes. *)
Definition pending (th : thread Value) : list Value :=
  match at_pc th with
  | InPushWait v => v :: pushes_of (todo th)
  | _ => pushes_of (todo th)
  end.

Definition never_pops (program : list (call Value)) : bool :=
  forallb (fun c => match c with CallPop => false | _ => true end) program.

Definition never_pushes (program : list (call Value)) : bool :=
  forallb (fun c => match c with CallPush _ => false | _ => true end) program.

End WithValue.

End WaitQueueAccounts.

(** ** [tools::ThreadPool]: the constructor *)
Module ThreadPool.

(** [do { _threads.push_back(std::thread(worker)); } while (--size);]
    with [size] a [size_t]: the number of threads in
    [_threads] when the loop ends, [None] when [fuel] rounds do not end
    it. *)
Fixpoint spawn (fuel : nat) (size : Z) (threads : nat) : option nat :=
  match fuel with
  | O => None
  | S fuel' =>
      let threads' := S threads in
      let size' := ((size - 1) mod WaitQueue.size_t_modulus)%Z in
      if (size' =? 0)%Z then Some threads' else spawn fuel' size' threads'
  end.

End ThreadPool.

(** Words for what [process] leaves in the settings. *)
Module SettingsWords.

Import Bson.

(** The index of the first element that satisfies [f]. *)
Fixpoint first_index {A : Type} (f : A -> bool) (l : list A) : option nat :=
  match l with
  | [] => None
  | a :: l' =>
      if f a then Some 0
      else match first_index f l' with
           | Some i => Some (S i)
           | None => None
           end
  end.

(** The queues a load-queue document asks for: each name as many times as
    its number says. *)
Definition queues_of (loads : Obj) : list string :=
  flat_map (fun load =>
              match value load with
              | NumberInt n => repeat (fieldName load) (Z.to_nat n)
              | _ => []
              end) loads.

End SettingsWords.

(** Words for what [setupLoad] does. *)
Module LoaderWords.

Import Loader.

Definition is_drop (a : action) : bool :=
  match a with
  | DropDatabase _ | DropCollection _ | DropIndexes _ => true
  | _ => false
  end.

(** The one drop the settings ask for: the database before the collection
    before the indexes. *)
Definition requested_drop (s : Settings.t) : list action :=
  if Settings.dropDb s then [DropDatabase (Settings.database s)]
  else if Settings.dropColl s then [DropCollection (Settings.ns s)]
  else if Settings.dropIndexes s then [DropIndexes (Settings.ns s)]
  else [].

End LoaderWords.

(** More concrete inputs. *)
Module MoreSamples.

Import Bson.

Definition zoneElement : Element := mkElement "zone" (NumberInt 2).

(** [Samples.env] with a parser that knows two more documents. *)
Definition env (hardware : Z) : Settings.Env :=
  Settings.mkEnv
    (fun json =>
       if String.eqb json "{}" then Some []
       else if String.eqb json "{region:1,zone:2}"
       then Some (Samples.regionKey ++ [zoneElement])
       else Settings.fromjson (Samples.env hardware) json)
    hardware
    (Settings.verifyKey (Samples.env hardware))
    (Settings.uriStart (Samples.env hardware))
    (Settings.ConnectionString_parse (Samples.env hardware)).

(** [Samples.settings] with another load-queue document. *)
Definition settings (shardKeyJson loadQueueJson : string) : Settings.t :=
  let s := Samples.settings shardKeyJson 0 false in
  {| Settings.endPointSettings := Settings.endPointSettings s;
     Settings.dispatchSettings := Settings.dispatchSettings s;
     Settings.batcherSettings := Settings.batcherSettings s;
     Settings.indexHas_id := Settings.indexHas_id s;
     Settings.indexPos_id := Settings.indexPos_id s;
     Settings.sharded := Settings.sharded s;
     Settings.shardKeyJson := Settings.shardKeyJson s;
     Settings.shardKeysBson := Settings.shardKeysBson s;
     Settings.hashed := Settings.hashed s;
     Settings.shardKeyFields := Settings.shardKeyFields s;
     Settings.add_id := Settings.add_id s;
     Settings.workPath := Settings.workPath s;
     Settings.loadQueueJson := loadQueueJson;
     Settings.loadQueueBson := Settings.loadQueueBson s;
     Settings.loadQueues := Settings.loadQueues s;
     Settings.chunksPerShard := Settings.chunksPerShard s;
     Settings.threads := Settings.threads s;
     Settings.stopBalancer := Settings.stopBalancer s;
     Settings.connstr := Settings.connstr s;
     Settings.cs := Settings.cs s;
     Settings.database := Settings.database s;
     Settings.ns := Settings.ns s;
     Settings.dropDb := true;
     Settings.dropColl := Settings.dropColl s;
     Settings.dropIndexes := Settings.dropIndexes s;
     Settings.shardKeyUnique := Settings.shardKeyUnique s |}.

(** A sharded cluster on which the collection cannot be sharded. *)
Definition clusterCannotShardCollection : Loader.Cluster :=
  Loader.mkCluster true false EmptyString true 1%Z false 2.

End MoreSamples.

(** Still more concrete inputs. *)
Module FurtherSamples.

Import Bson.

Definition hashedKey : Obj := [mkElement "user_id" (String "hashed")].

(** [MoreSamples.env] with a parser that knows one more document. *)
Definition env (hardware : Z) : Settings.Env :=
  Settings.mkEnv
    (fun json =>
       if String.eqb json "{user_id:'hashed'}" then Some hashedKey
       else Settings.fromjson (MoreSamples.env hardware) json)
    hardware
    (Settings.verifyKey (MoreSamples.env hardware))
    (Settings.uriStart (MoreSamples.env hardware))
    (Settings.ConnectionString_parse (MoreSamples.env hardware)).

(** [Samples.settings "{_id:1}" 0 true] with another connection string. *)
Definition settingsConnectingTo (connstr : string) : Settings.t :=
  let s := Samples.settings "{_id:1}" 0 true in
  {| Settings.endPointSettings := Settings.endPointSettings s;
     Settings.dispatchSettings := Settings.dispatchSettings s;
     Settings.batcherSettings := Settings.batcherSettings s;
     Settings.indexHas_id := Settings.indexHas_id s;
     Settings.indexPos_id := Settings.indexPos_id s;
     Settings.sharded := Settings.sharded s;
     Settings.shardKeyJson := Settings.shardKeyJson s;
     Settings.shardKeysBson := Settings.shardKeysBson s;
     Settings.hashed := Settings.hashed s;
     Settings.shardKeyFields := Settings.shardKeyFields s;
     Settings.add_id := Settings.add_id s;
     Settings.workPath := Settings.workPath s;
     Settings.loadQueueJson := Settings.loadQueueJson s;
     Settings.loadQueueBson := Settings.loadQueueBson s;
     Settings.loadQueues := Settings.loadQueues s;
     Settings.chunksPerShard := Settings.chunksPerShard s;
     Settings.threads := Settings.threads s;
     Settings.stopBalancer := Settings.stopBalancer s;
     Settings.connstr := connstr;
     Settings.cs := Settings.cs s;
     Settings.database := Settings.database s;
     Settings.ns := Settings.ns s;
     Settings.dropDb := Settings.dropDb s;
     Settings.dropColl := Settings.dropColl s;
     Settings.dropIndexes := Settings.dropIndexes s;
     Settings.shardKeyUnique := Settings.shardKeyUnique s |}.

(** A sharded cluster that refuses [enableSharding] with the reply of a
    failed command, [ok = 0], and shards the collection. *)
Definition clusterEnableShardingRefused : Loader.Cluster :=
  Loader.mkCluster true false EmptyString false 0%Z true 2.

(** The same cluster when it cannot shard the collection either. *)
Definition clusterNothingCanBeSharded : Loader.Cluster :=
  Loader.mkCluster true false EmptyString false 0%Z false 2.

End FurtherSamples.

(** ** The finalize phase: [Loader::getNextPrep] and
    [Loader::threadPrepQueue] *)
Module Finalize.

Section WithDispatch.

(** What an [AbstractChunkDispatch*] of the waterfall points at. *)
Variable Dispatch : Type.

(** A pointer; [None] is [nullptr]. *)
Definition pointer : Type := option Dispatch.

(** [getNextPrep], which runs under [_prepSetMutex]: the pointer returned
    and the [_wf] left. *)
Definition getNextPrep (_wf : list pointer) : pointer * list pointer :=
  match _wf with
  | [] => (None, [])
  | ret :: rest => (ret, rest)
  end.

(** Where a thread is in [threadPrepQueue]: about to call [getNextPrep],
    about to call [prep->prep()], about to call [prep->doLoad()], or out
    of the loop. *)
Inductive pc : Type :=
| AtGetNextPrep
| AtPrep (prep : Dispatch)
| AtDoLoad (prep : Dispatch)
| Returned.

(** What is seen from outside: a pointer taken off [_wf], and the two
    calls on a dispatch, each with the thread that does it. *)
Inductive event : Type :=
| Took (thread : nat) (p : pointer)
| Prep (thread : nat) (d : Dispatch)
| DoLoad (thread : nat) (d : Dispatch).

(** One step of the thread numbered [i]. *)
Definition thread_step (i : nat) (th : pc) (_wf : list pointer)
  : list pointer * pc * list event :=
  match th with
  | AtGetNextPrep =>
      let (prep, rest) := getNextPrep _wf in
      (rest,
       match prep with
       | None => Returned
       | Some d => AtPrep d
       end,
       match _wf with
       | [] => []
       | p :: _ => [Took i p]
       end)
  | AtPrep d => (_wf, AtDoLoad d, [Prep i d])
  | AtDoLoad d => (_wf, AtGetNextPrep, [DoLoad i d])
  | Returned => (_wf, Returned, [])
  end.

Record system : Type := mkSystem {
  _wf : list pointer;
  threads : list pc;
  log : list event
}.

(** [_wf] as [getWaterFall] gave it and [finalizeThreads] threads, each at
    the top of [threadPrepQueue]. *)
Definition init (waterfall : list pointer) (finalizeThreads : nat) : system :=
  mkSystem waterfall (repeat AtGetNextPrep finalizeThreads) [].

Definition step (i : nat) (s : system) : system :=
  match nth_error (threads s) i with
  | None => s
  | Some th =>
      let '(wf', th', evs) := thread_step i th (_wf s) in
      mkSystem wf' (WaitQueue.set_nth i th' (threads s)) (log s ++ evs)
  end.

Definition run (schedule : list nat) (s : system) : system :=
  fold_left (fun s i => step i s) schedule s.

(** The pointers taken off [_wf], the dispatches prepared and the
    dispatches loaded, each in the order of the log. *)
Fixpoint taken (l : list event) : list pointer :=
  match l with
  | [] => []
  | Took _ p :: l' => p :: taken l'
  | _ :: l' => taken l'
  end.

Fixpoint prepared (l : list event) : list Dispatch :=
  match l with
  | [] => []
  | Prep _ d :: l' => d :: prepared l'
  | _ :: l' => prepared l'
  end.

Fixpoint loaded (l : list event) : list Dispatch :=
  match l with
  | [] => []
  | DoLoad _ d :: l' => d :: loaded l'
  | _ :: l' => loaded l'
  end.

(** The pointers of a list that are not null. *)
Fixpoint targets (ps : list pointer) : list Dispatch :=
  match ps with
  | [] => []
  | Some d :: ps' => d :: targets ps'
  | None :: ps' => targets ps'
  end.

(** The dispatch a thread has taken and not loaded yet, and the dispatch
    it has prepared and not loaded yet. *)
Definition holding (th : pc) : list Dispatch :=
  match th with
  | AtPrep d | AtDoLoad d => [d]
  | _ => []
  end.

Definition about_to_load (th : pc) : list Dispatch :=
  match th with
  | AtDoLoad d => [d]
  | _ => []
  end.

(** Whether the step of thread [i] does anything, and how many steps of a
    schedule do. *)
Definition active (i : nat) (s : system) : bool :=
  match nth_error (threads s) i with
  | None | Some Returned => false
  | Some _ => true
  end.

Fixpoint active_steps (schedule : list nat) (s : system) : nat :=
  match schedule with
  | [] => 0
  | i :: schedule' =>
      (if active i s then 1 else 0) + active_steps schedule' (step i s)
  end.

(** The steps a thread has before it is back at [getNextPrep], and a bound
    on the steps a run has left: three for each pointer still in [_wf]
    and the steps each thread has in hand. *)
Definition weight (th : pc) : nat :=
  match th with
  | AtGetNextPrep => 1
  | AtPrep _ => 3
  | AtDoLoad _ => 2
  | Returned => 0
  end.

Definition work_left (s : system) : nat :=
  3 * length (_wf s) + list_sum (map weight (threads s)).

End WithDispatch.

Arguments AtGetNextPrep {Dispatch}.
Arguments Returned {Dispatch}.

End Finalize.

(** ** [Loader::Loader] and [Loader::run]: the size of the finalize pool *)
Module LoaderRun.

(** [_threadsMax {(size_t) _settings.threads}], the conversion of an [int]
    to [size_t]. *)
Definition _threadsMax (s : Settings.t) : Z :=
  (Settings.threads s mod WaitQueue.size_t_modulus)%Z.

(** [size_t finalizeThreads = _threadsMax;
    tools::ThreadPool tpFinalize(finalizeThreads);]: the number of workers
    of the pool, [None] when [fuel] rounds do not end the constructor's
    loop. *)
Definition tpFinalize (fuel : nat) (s : Settings.t) : option nat :=
  ThreadPool.spawn fuel (_threadsMax s) 0.

End LoaderRun.

(* ===================================================================== *)
(** * Properties *)
(* ===================================================================== *)

(** ** The bounded wait-queue *)

Section WaitQueueFacts.

Import WaitQueue.

Variable Value : Type.
Implicit Types (q : WaitQueue.t Value) (v : Value).

Lemma size_emplace q v : size (emplace v q) = S (size q).
Proof. unfold size, emplace; simpl. rewrite length_app; simpl; lia. Qed.

Lemma full_iff q : full q = true <-> _queueMaxSize q <= size q.
Proof. unfold full. apply Nat.leb_le. Qed.

Lemma bounded_make N : bounded N (make Value N).
Proof. split; simpl; [reflexivity | unfold size; simpl; lia]. Qed.

Lemma push_bounded N q v q' w :
  bounded N q -> push v q = PushDone q' w ->
  bounded N q' /\ w = push_policy (size q).
Proof.
  intros [Hm Hs]. unfold push.
  destruct (full q) eqn:Hf; simpl; [discriminate|].
  intros Heq; injection Heq as <- <-.
  apply Bool.not_true_iff_false in Hf. rewrite full_iff in Hf.
  split; [|reflexivity].
  split; [exact Hm | rewrite size_emplace; lia].
Qed.

Lemma push_resume_bounded N q v q' :
  bounded N q -> push_resume v q = Some q' -> bounded N q'.
Proof.
  intros [Hm Hs]. unfold push_resume.
  destruct (full q) eqn:Hf; simpl; [discriminate|].
  intros Heq; injection Heq as <-.
  apply Bool.not_true_iff_false in Hf. rewrite full_iff in Hf.
  split; [exact Hm | rewrite size_emplace; lia].
Qed.

Lemma tolimit_exact N q :
  (Z.of_nat N < size_t_modulus)%Z -> bounded N q ->
  tolimit q = (Z.of_nat N - Z.of_nat (size q))%Z.
Proof.
  intros HN [Hm Hs]. unfold tolimit. rewrite Hm.
  apply Z.mod_small. lia.
Qed.

Lemma pop_bounded N q v q' w :
  bounded N q -> pop q = PopTrue v q' w ->
  bounded N q' /\
  ((Z.of_nat N < size_t_modulus)%Z -> w = pop_policy N (size q)).
Proof.
  intros Hb. pose proof Hb as [Hm Hs]. unfold pop.
  destruct (negb (empty q) || _endWait q); [|discriminate].
  destruct (_queue q) as [|x rest] eqn:Hq; [discriminate|].
  intros Heq; injection Heq as <- <- <-.
  assert (Hsz : size q = S (length rest)) by (unfold size; rewrite Hq; reflexivity).
  split.
  - split; [exact Hm | unfold size; simpl; lia].
  - intros HN. rewrite (tolimit_exact HN Hb). unfold pop_policy.
    destruct (Z.eqb_spec (Z.of_nat N - Z.of_nat (size q)) 0) as [E0|E0].
    + destruct (Nat.eqb_spec (size q) N); [reflexivity | lia].
    + destruct (Nat.eqb_spec (size q) N); [lia|].
      destruct (Z.eqb_spec (Z.of_nat N - Z.of_nat (size q)) 1) as [E1|E1];
        destruct (Nat.eqb_spec (S (size q)) N); try reflexivity; lia.
Qed.

Lemma thread_step_bounded N (th th' : thread Value) q q' evs :
  bounded N q -> thread_step th q = (q', th', evs) ->
  bounded N q' /\
  ((Z.of_nat N < size_t_modulus)%Z -> Forall (policy_on_entry N) evs).
Proof.
  intros Hb. unfold thread_step, pop_step.
  destruct (at_pc th) as [|v|].
  - destruct (todo th) as [|[v| |] rest].
    + intros Heq; injection Heq as <- <- <-. auto.
    + destruct (push v q) as [q1 w|] eqn:Hp; intros Heq;
        injection Heq as <- <- <-; [|auto].
      destruct (push_bounded _ Hb Hp) as [Hb' Hw]. split; [exact Hb'|].
      intros _. constructor; [exact Hw | constructor].
    + destruct (pop q) as [| |v q1 w] eqn:Hp; intros Heq;
        injection Heq as <- <- <-; [auto| |].
      * split; [exact Hb|]. intros _. constructor; [reflexivity|constructor].
      * destruct (pop_bounded Hb Hp) as [Hb' Hw]. split; [exact Hb'|].
        intros HN. constructor; [exact (Hw HN) | constructor].
    + intros Heq; injection Heq as <- <- <-. split.
      * destruct Hb as [Hm Hs]. split; assumption.
      * intros _. constructor; [exact I | constructor].
  - destruct (push_resume v q) as [q1|] eqn:Hp; intros Heq;
      injection Heq as <- <- <-; [|auto].
    split; [exact (push_resume_bounded _ Hb Hp)|].
    intros _. constructor; [reflexivity | constructor].
  - destruct (pop q) as [| |v q1 w] eqn:Hp; intros Heq;
      injection Heq as <- <- <-; [auto| |].
    + split; [exact Hb|]. intros _. constructor; [reflexivity|constructor].
    + destruct (pop_bounded Hb Hp) as [Hb' Hw]. split; [exact Hb'|].
      intros HN. constructor; [exact (Hw HN) | constructor].
Qed.

Lemma step_bounded N i (s : system Value) :
  bounded N (queue s) ->
  bounded N (queue (step i s)) /\
  ((Z.of_nat N < size_t_modulus)%Z ->
   Forall (policy_on_entry N) (trace s) ->
   Forall (policy_on_entry N) (trace (step i s))).
Proof.
  intros Hb. unfold step.
  destruct (nth_error (threads s) i) as [th|]; [|auto].
  destruct (thread_step th (queue s)) as [[q' th'] evs] eqn:Hts.
  destruct (thread_step_bounded _ Hb Hts) as [Hb' Hev]. simpl.
  split; [exact Hb'|].
  intros HN Htr. apply Forall_app. split; [exact Htr | exact (Hev HN)].
Qed.

Lemma run_bounded N : forall schedule (s : system Value),
  bounded N (queue s) ->
  bounded N (queue (run schedule s)) /\
  ((Z.of_nat N < size_t_modulus)%Z ->
   Forall (policy_on_entry N) (trace s) ->
   Forall (policy_on_entry N) (trace (run schedule s))).
Proof.
  induction schedule as [|i schedule IH]; intros s Hb; simpl.
  - auto.
  - destruct (@step_bounded N i s Hb) as [Hb1 Htr1].
    destruct (IH _ Hb1) as [Hb2 Htr2].
    split; [exact Hb2 | auto].
Qed.

Lemma pops_ended N : forall m,
  pops m (mk N (@nil Value) true) = (repeat None m, mk N [] true).
Proof.
  induction m as [|m IH]; simpl; [reflexivity|].
  unfold pop, empty; simpl. rewrite IH. reflexivity.
Qed.

Lemma pops_drain_then_false N : forall (vs : list Value) m,
  pops (length vs + m) (mk N vs true)
  = (map Some vs ++ repeat None m, mk N [] true).
Proof.
  induction vs as [|x vs IH]; intros m.
  - apply pops_ended.
  - cbn [length Nat.add pops]. unfold pop, empty; cbn [_queue negb orb].
    rewrite IH. reflexivity.
Qed.


(** C3. Whatever the threads and whatever the order in which they run, a
    queue built with capacity [N] never holds more than [N] values; and in
    a state where it holds [N], [push] does not insert: the producer is
    parked and stays parked at every wake-up. In every other state [push]
    inserts at once. *)
Theorem C3_size_never_exceeds_capacity
    (N : nat) (programs : list (list (call Value))) (schedule : list nat)
    (v : Value) :
  let q := queue (run schedule (init N programs)) in
  size q <= N /\
  if size q =? N
  then push v q = PushWait /\ push_resume v q = None
  else exists w, push v q = PushDone (emplace v q) w.
Proof.
  intros q.
  destruct (@run_bounded N schedule (init N programs) (bounded_make N))
    as [[Hm Hs] _].
  fold q in Hm, Hs. split; [exact Hs|].
  unfold push, push_resume, full. rewrite Hm.
  destruct (Nat.eqb_spec (size q) N) as [E|E].
  - rewrite E, Nat.leb_refl. split; reflexivity.
  - destruct (Nat.leb_spec N (size q)); [lia|]. simpl. eexists; reflexivity.
Qed.

(** C4, as the code has it. [push] never reads the flag [endWait] sets.
    After [endWait] a push on a queue with room appends the value and
    issues the same wake as before; a push on a full queue parks the
    producer as before, and the parked producer inserts as soon as there is
    room; the pops that follow return the appended value in its turn. *)
Theorem C4_push_after_endWait_still_inserts
    (q : WaitQueue.t Value) (v : Value) :
  let q1 := fst (endWait q) in
  let q2 := mk (_queueMaxSize q) (_queue q ++ [v]) true in
  _endWait q1 = true /\
  push v q1
    = (if full q then PushWait else PushDone q2 (push_policy (size q))) /\
  push_resume v q1 = (if full q then None else Some q2) /\
  fst (pops (S (size q)) q2) = map Some (_queue q) ++ [Some v].
Proof.
  intros q1 q2. split; [reflexivity|].
  assert (Hfull : full q1 = full q) by reflexivity.
  split; [|split].
  - unfold push. rewrite Hfull. destruct (full q); reflexivity.
  - unfold push_resume. rewrite Hfull. destruct (full q); reflexivity.
  - replace (S (size q)) with (length (_queue q ++ [v]) + 0)
      by (unfold size; rewrite length_app; simpl; lia).
    unfold q2. rewrite pops_drain_then_false. simpl.
    rewrite app_nil_r, map_app. reflexivity.
Qed.

(** The wakes that are issued. On every run of a queue of capacity [N]: a
    push that finds room on entry issues [notify_one] when it finds the
    queue empty, [notify_all] when it finds one value, and nothing
    otherwise; a pop that returns a value issues [notify_one] when it
    finds [N] values, [notify_all] when it finds [N - 1], and nothing
    otherwise. *)
Lemma wake_policy_on_entry_holds
    (N : nat) (programs : list (list (call Value))) (schedule : list nat) :
  (Z.of_nat N < size_t_modulus)%Z ->
  Forall (policy_on_entry N) (trace (run schedule (init N programs))).
Proof.
  intros HN.
  destruct (@run_bounded N schedule (init N programs) (bounded_make N))
    as [_ Htr].
  apply Htr; [exact HN | constructor].
Qed.

End WaitQueueFacts.

(** A late producer: capacity 1, [endWait], then [push 7]. The value is in
    the queue. *)
Lemma C4_late_push_is_accepted :
  let q := fst (WaitQueue.endWait (WaitQueue.make nat 1)) in
  WaitQueue._endWait q = true /\
  WaitQueue.push 7 q
    = WaitQueue.PushDone (WaitQueue.mk 1 [7] true) NotifyOne /\
  WaitQueue.pop (WaitQueue.mk 1 [7] true)
    = WaitQueue.PopTrue 7 (WaitQueue.mk 1 [] true) NotifyOne.
Proof. repeat split. Qed.

(** C5. The code at the input where it breaks the policy. Capacity 1, a
    producer that pushes 1, 2 and 3 and a consumer that pops twice, run in
    the order producer (1 goes in, [notify_one]), producer (parked with 2:
    the queue is full), consumer (takes 1, [notify_one]), consumer (parked:
    the queue is empty), producer (woken: 2 goes into the empty queue on
    the path after the wait, which notifies no one), producer (parked with
    3: the queue is full). The push that took the size from 0 to 1 issued
    no wake; the queue holds 2, both threads are parked, and no
    notification is left to come. *)
Theorem C5_waited_push_issues_no_wake :
  let s := WaitQueue.run [0; 0; 1; 1; 0; 0]
             (WaitQueue.init 1
                [[WaitQueue.CallPush 1; WaitQueue.CallPush 2;
                  WaitQueue.CallPush 3];
                 [WaitQueue.CallPop; WaitQueue.CallPop]]) in
  WaitQueue.trace s
    = [WaitQueue.EvPush 0 NotifyOne; WaitQueue.EvPop 1 NotifyOne;
       WaitQueue.EvPushAfterWait 0] /\
  WaitQueue._queue (WaitQueue.queue s) = [2] /\
  map (@WaitQueue.at_pc nat) (WaitQueue.threads s)
    = [WaitQueue.InPushWait 3; WaitQueue.InPopWait] /\
  ~ Forall (WaitQueue.policy_every_push_and_pop 1) (WaitQueue.trace s).
Proof.
  split; [reflexivity|]. split; [reflexivity|]. split; [reflexivity|].
  intros H. vm_compute in H.
  inversion H as [|? ? _ H1]; subst.
  inversion H1 as [|? ? _ H2]; subst.
  inversion H2 as [|? ? H3 _]; subst.
  discriminate H3.
Qed.

(** ** The round-robin cursor *)

Section RoundRobinFacts.

Import RoundRobin.

Variable Value : Type.
Variable Value_eq_dec : forall x y : Value, {x = y} + {x <> y}.
Implicit Types (rr : RoundRobin.t Value) (c : list Value) (x y : Value).

Lemma advance_lt n p : p < n -> advance n p < n.
Proof. unfold advance. intros H. destruct (Nat.eqb_spec (S p) n); lia. Qed.

Lemma next_in_range c p :
  p < length c ->
  exists y, nth_error c (advance (length c) p) = Some y /\
            next (mk c p) = (Some y, mk c (advance (length c) p)).
Proof.
  intros Hp. pose proof (advance_lt Hp) as Ha.
  destruct (nth_error c (advance (length c) p)) as [y|] eqn:Hy.
  - exists y. split; [reflexivity|].
    unfold next. cbn [_container _position].
    destruct c as [|z c'] eqn:Hc; [simpl in Hp; lia|].
    cbv zeta. fold (advance (length (z :: c')) p). rewrite Hy. reflexivity.
  - apply nth_error_None in Hy. lia.
Qed.

Lemma next_position_ok rr : position_ok rr -> position_ok (snd (next rr)).
Proof.
  destruct rr as [c p]. intros [Hp|[Hc Hp]]; simpl in *.
  - destruct (next_in_range c Hp) as [y [_ ->]]. left. simpl.
    apply advance_lt, Hp.
  - subst. right. split; reflexivity.
Qed.

Lemma past_lt n i p : i < n -> p < n -> past n i p < n.
Proof. unfold past. intros. destruct (Nat.leb_spec i p); lia. Qed.

Lemma past_advance_hit n i p :
  i < n -> p < n -> advance n p = i ->
  past n i p = n - 1 /\ past n i (advance n p) = 0.
Proof.
  unfold past, advance. intros Hi Hp.
  destruct (Nat.eqb_spec (S p) n); intros <-.
  - simpl. split; lia.
  - rewrite Nat.leb_refl. destruct (Nat.leb_spec (S p) p); lia.
Qed.

Lemma past_advance_miss n i p :
  i < n -> p < n -> advance n p <> i ->
  past n i (advance n p) = S (past n i p).
Proof.
  unfold past, advance. intros Hi Hp.
  destruct (Nat.eqb_spec (S p) n); intros Hne.
  - destruct (Nat.leb_spec i 0); [lia|].
    destruct (Nat.leb_spec i p); lia.
  - destruct (Nat.leb_spec i (S p)); destruct (Nat.leb_spec i p); lia.
Qed.

Lemma nexts_count c i x :
  NoDup c -> nth_error c i = Some x ->
  forall k p, p < length c ->
  exists vs,
    nexts k (mk c p) = map Some vs /\
    count_occ Value_eq_dec vs x = (k + past (length c) i p) / length c.
Proof.
  intros Hnd Hx.
  assert (Hi : i < length c) by (apply nth_error_Some; congruence).
  induction k as [|k IH]; intros p Hp.
  - exists []. split; [reflexivity|]. simpl.
    symmetry. apply Nat.div_small. apply past_lt; assumption.
  - destruct (next_in_range c Hp) as [y [Hy Hn]].
    pose proof (advance_lt Hp) as Ha.
    destruct (IH _ Ha) as [vs [Hvs Hc]].
    exists (y :: vs). split.
    + cbn [nexts]. rewrite Hn, Hvs. reflexivity.
    + cbn [count_occ]. destruct (Value_eq_dec y x) as [E|E].
      * subst y.
        assert (Hai : advance (length c) p = i).
        { apply (proj1 (NoDup_nth_error c) Hnd); [exact Ha | congruence]. }
        destruct (past_advance_hit Hi Hp Hai) as [H1 H2].
        rewrite Hc, H1, H2, Nat.add_0_r.
        replace (S k + (length c - 1)) with (k + 1 * length c) by lia.
        rewrite Nat.div_add by lia. lia.
      * assert (Hai : advance (length c) p <> i) by congruence.
        rewrite Hc, (past_advance_miss Hi Hp Hai).
        f_equal. lia.
Qed.

Lemma between_floor_and_ceiling n k s :
  0 < n -> s < n ->
  (k + s) / n = k / n \/ (k + s) / n = (k + n - 1) / n.
Proof.
  intros Hn Hs.
  assert (H1 : k / n <= (k + s) / n) by (apply Nat.Div0.div_le_mono; lia).
  assert (H2 : (k + s) / n <= (k + n - 1) / n)
    by (apply Nat.Div0.div_le_mono; lia).
  assert (H3 : (k + n - 1) / n <= (k + 1 * n) / n)
    by (apply Nat.Div0.div_le_mono; lia).
  rewrite Nat.div_add in H3 by lia.
  lia.
Qed.

(** Every cursor a client can hold has a valid position: it has one when
    built, and [next] and [remove] keep it. *)
Lemma position_ok_kept c rr x :
  position_ok (make c) /\
  (position_ok rr -> position_ok (snd (next rr))) /\
  position_ok (remove Value_eq_dec x rr).
Proof.
  split; [|split].
  - unfold position_ok. simpl. destruct c; simpl; [right; auto | left; lia].
  - apply next_position_ok.
  - unfold position_ok. simpl.
    destruct (filter _ (_container rr)); simpl; [right; auto | left; lia].
Qed.

(** C7. Over a container of [n >= 1] distinct elements, from any position
    of the cursor, [k] consecutive calls of [next] all return a value, and
    each element of the container is returned [k / n] times or
    [(k + n - 1) / n] times, the floor and the ceiling of [k / n]. *)
Theorem C7_round_robin_is_fair c p k x :
  NoDup c -> p < length c -> In x c ->
  exists vs,
    nexts k (mk c p) = map Some vs /\
    (count_occ Value_eq_dec vs x = k / length c \/
     count_occ Value_eq_dec vs x = (k + length c - 1) / length c).
Proof.
  intros Hnd Hp Hin.
  destruct (In_nth_error _ _ Hin) as [i Hi].
  assert (Hil : i < length c) by (apply nth_error_Some; congruence).
  destruct (nexts_count i Hnd Hi k Hp) as [vs [Hvs Hc]].
  exists vs. split; [exact Hvs|].
  rewrite Hc. apply between_floor_and_ceiling; [lia|].
  apply past_lt; assumption.
Qed.

Lemma next_yields_member rr y : fst (next rr) = Some y -> In y (_container rr).
Proof.
  destruct rr as [c p]. unfold next. cbn [_container _position].
  destruct c as [|z c']; cbv zeta; cbn [fst].
  - discriminate.
  - intros H. eapply nth_error_In. exact H.
Qed.

Lemma next_container rr : _container (snd (next rr)) = _container rr.
Proof. unfold next. destruct (_container rr) eqn:Hc; simpl; auto. Qed.

Lemma remove_container x rr y :
  In y (_container (remove Value_eq_dec x rr)) ->
  In y (_container rr) /\ y <> x.
Proof.
  unfold remove, init; simpl. rewrite filter_In.
  intros [H1 H2]. split; [exact H1|].
  destruct (Value_eq_dec y x); [discriminate | assumption].
Qed.

Lemma results_from_container x : forall ops rr,
  ~ In x (_container rr) ->
  ~ In (Some x) (results Value_eq_dec ops rr).
Proof.
  induction ops as [|[|v] ops IH]; intros rr Hx; simpl.
  - tauto.
  - destruct (next rr) as [r rr'] eqn:Hn. simpl. intros [E|E].
    + subst r. apply Hx. apply next_yields_member. rewrite Hn. reflexivity.
    + revert E. apply IH.
      replace rr' with (snd (next rr)) by (rewrite Hn; reflexivity).
      rewrite next_container. exact Hx.
  - apply IH. intros Hin. apply remove_container in Hin. tauto.
Qed.

(** C8. After [remove x] no element of the container equals [x], the
    position designates the first element left (or the container is
    empty), and whatever calls follow, [next] and further [remove]s in any
    order, no [next] returns [x]. *)
Theorem C8_removed_value_never_returned rr x (ops : list (op Value)) :
  ~ In x (_container (remove Value_eq_dec x rr)) /\
  position_ok (remove Value_eq_dec x rr) /\
  _position (remove Value_eq_dec x rr) = 0 /\
  ~ In (Some x) (results Value_eq_dec ops (remove Value_eq_dec x rr)).
Proof.
  assert (Hx : ~ In x (_container (remove Value_eq_dec x rr))).
  { intros Hin. apply remove_container in Hin. tauto. }
  split; [exact Hx|]. split; [|split].
  - unfold position_ok. simpl.
    destruct (filter _ (_container rr)); simpl; [right; auto | left; lia].
  - reflexivity.
  - apply results_from_container, Hx.
Qed.

End RoundRobinFacts.

Lemma C7_round_robin_witness :
  exists vs,
    RoundRobin.nexts 7 (RoundRobin.mk [10; 20; 30] 0) = map Some vs /\
    (count_occ Nat.eq_dec vs 20 = 7 / 3 \/
     count_occ Nat.eq_dec vs 20 = (7 + 3 - 1) / 3).
Proof.
  apply (@C7_round_robin_is_fair nat Nat.eq_dec [10; 20; 30] 0 7 20).
  - repeat constructor; simpl; intuition discriminate.
  - simpl; lia.
  - simpl; auto.
Defined.

(** ** Settings *)

Lemma bind_Return_inv {Msg A B : Type}
    (m : outcome Msg A) (f : A -> outcome Msg B) (b : B) :
  bind m f = Return b -> exists a, m = Return a /\ f a = Return b.
Proof.
  destruct m as [a| | |]; simpl; intros H; try discriminate.
  exists a. split; [reflexivity | exact H].
Qed.

Section SettingsFacts.

Import Bson Settings.

Variable E : Env.
Implicit Types (s : Settings.t) (keys : Obj) (st : KeyScan).

Lemma scanShardKeys_accepts : forall keys st,
  forallb field_ok keys = true ->
  exists st',
    scanShardKeys keys st = Return st' /\
    scan_hashed st' = scan_hashed st || existsb is_hashed keys /\
    scan_count st' = scan_count st + length keys /\
    scan_indexHas_id st' = scan_indexHas_id st || existsb names_id keys /\
    scan_shardKeyFields st' = scan_shardKeyFields st ++ map fieldName keys.
Proof.
  induction keys as [|key rest IH]; intros st Hok.
  - exists st. simpl. rewrite !orb_false_r, Nat.add_0_r, app_nil_r. auto.
  - cbn [forallb] in Hok. apply andb_prop in Hok as [Hk Hrest].
    cbn [scanShardKeys].
    unfold field_ok in Hk. fold (is_hashed key). fold (names_id key).
    assert (Hh : exists h,
      (if is_hashed key then Return true
       else bind (Int key) (fun i =>
              if negb (i =? 1)%Z && negb (i =? -1)%Z
              then Exit (UnknownKeyValue key)
              else Return (scan_hashed st))) = Return h /\
      h = scan_hashed st || is_hashed key).
    { destruct (is_hashed key) eqn:Hhk.
      - exists true. rewrite orb_true_r. auto.
      - simpl in Hk. unfold is_direction in Hk. unfold Int.
        destruct (value key) as [n| | | |]; try discriminate.
        simpl. apply orb_prop in Hk.
        exists (scan_hashed st). rewrite orb_false_r. split; [|reflexivity].
        destruct Hk as [H1|H1]; rewrite H1; simpl;
          [reflexivity | rewrite andb_false_r; reflexivity]. }
    destruct Hh as [h [-> Hh]]. cbn [bind].
    match goal with |- context [scanShardKeys rest ?st1] =>
      destruct (IH st1 Hrest) as [st' [Hrun [H1 [H2 [H3 H4]]]]] end.
    exists st'. split; [exact Hrun|].
    cbn [scan_hashed scan_count scan_indexHas_id scan_shardKeyFields]
      in H1, H2, H3, H4.
    cbn [existsb length map]. subst h.
    repeat split.
    + rewrite H1. symmetry. apply orb_assoc.
    + rewrite H2. lia.
    + rewrite H3. destruct (scan_indexHas_id st), (names_id key); reflexivity.
    + rewrite H4, <- app_assoc. reflexivity.
Qed.

Lemma scanShardKeys_rejects : forall keys st st',
  forallb field_ok keys = false -> scanShardKeys keys st <> Return st'.
Proof.
  induction keys as [|key rest IH]; intros st st' Hbad; [discriminate|].
  cbn [forallb] in Hbad. cbn [scanShardKeys].
  fold (is_hashed key).
  destruct (field_ok key) eqn:Hk.
  - simpl in Hbad. intros Hrun.
    apply bind_Return_inv in Hrun as [h [_ Hrun]].
    revert Hrun. apply IH. exact Hbad.
  - unfold field_ok in Hk. apply orb_false_elim in Hk as [Hh Hd].
    rewrite Hh. unfold is_direction in Hd. unfold Int.
    destruct (value key) as [n| | | |]; try (simpl; discriminate).
    apply orb_false_elim in Hd as [H1 H2]. simpl. rewrite H1, H2. simpl.
    discriminate.
Qed.

Lemma processShardKey_sharded s keys :
  sharded s = true -> shardKeyJson s <> EmptyString ->
  fromjson E (shardKeyJson s) = Some keys ->
  processShardKey E s =
    bind (scanShardKeys keys
            (mkKeyScan (hashed s) (shardKeyFields s) false size_t_minus_one 0))
         (fun scan =>
            if scan_hashed scan && (1 <? scan_count scan)
            then Exit HashedSingleFieldOnly
            else Return (keys, scan)).
Proof.
  intros Hs Hne Hj. unfold processShardKey. rewrite Hs.
  apply String.eqb_neq in Hne. rewrite Hne, Hj. reflexivity.
Qed.

(** C6, as the code has it. For a sharded load whose key document is
    [keys] (and whose [hashed] flag starts out false), [process] gets past
    the key exactly when every field is hashed or has direction 1 or -1 and
    a hashed field is the only field of the key; a key of two or more valid
    fields of which one is hashed ends [process] with the message that
    only a single field can be hashed. *)
Theorem C6_hashed_key_is_a_single_field s keys :
  sharded s = true -> shardKeyJson s <> EmptyString ->
  fromjson E (shardKeyJson s) = Some keys ->
  hashed s = false ->
  ((exists r, processShardKey E s = Return r) <->
   hashed_field_stands_alone keys = true) /\
  (forallb field_ok keys = true -> existsb is_hashed keys = true ->
   1 < length keys ->
   process E s = Exit HashedSingleFieldOnly).
Proof.
  intros Hs Hne Hj Hh.
  pose proof (processShardKey_sharded s Hs Hne Hj) as Hp.
  rewrite Hh in Hp.
  set (scan0 := mkKeyScan false (shardKeyFields s) false size_t_minus_one 0)
    in Hp.
  unfold hashed_field_stands_alone.
  destruct (forallb field_ok keys) eqn:Hok.
  - destruct (scanShardKeys_accepts keys scan0 Hok)
      as [st' [Hrun [H1 [H2 _]]]].
    rewrite Hrun in Hp. cbn [bind] in Hp.
    rewrite H1, H2 in Hp. cbn [scan0 scan_hashed scan_count orb Nat.add] in Hp.
    split.
    + rewrite andb_true_l. split.
      * intros [r Hr]. rewrite Hp in Hr.
        destruct (existsb is_hashed keys); [|reflexivity].
        destruct (Nat.ltb_spec 1 (length keys)); [discriminate|].
        simpl. apply Nat.leb_le. lia.
      * intros Halone. rewrite Hp.
        destruct (existsb is_hashed keys); simpl in *;
          [|eexists; reflexivity].
        apply Nat.leb_le in Halone.
        destruct (Nat.ltb_spec 1 (length keys)); [lia | eexists; reflexivity].
    + intros _ Hex Hlen. unfold process. rewrite Hp, Hex.
      destruct (Nat.ltb_spec 1 (length keys)); [reflexivity | lia].
  - split; [|discriminate].
    rewrite andb_false_l. split; [|discriminate].
    intros [r Hr]. rewrite Hp in Hr.
    apply bind_Return_inv in Hr as [scan [Hrun _]].
    exfalso. revert Hrun. apply scanShardKeys_rejects. exact Hok.
Qed.

Lemma resolveThreads_as_specified (configured : Z) :
  (0 <= hardware_concurrency E < 2 ^ 30)%Z ->
  (- 2 ^ 31 <= configured < 2 ^ 31)%Z ->
  resolveThreads E configured
  = threads_as_specified (hardware_concurrency E) configured.
Proof.
  unfold resolveThreads, threads_as_specified, to_int, to_unsigned,
    uint_modulus.
  set (hc := hardware_concurrency E).
  change (2 ^ 30)%Z with 1073741824%Z.
  change (2 ^ 31)%Z with 2147483648%Z.
  change (2 ^ 32)%Z with 4294967296%Z.
  intros Hhc Ht.
  destruct (Z.eqb_spec configured 0) as [E0|E0].
  - rewrite (Z.mod_small (hc * 2)) by lia.
    rewrite (Z.mod_small (hc * 2)) by lia.
    destruct (Z.ltb_spec (hc * 2) 2147483648); [f_equal; lia | lia].
  - destruct (Z.ltb_spec configured 0) as [Hneg|Hpos]; [|reflexivity].
    assert (Hu : (configured mod 4294967296 = configured + 4294967296)%Z).
    { symmetry. apply (Z.mod_unique _ _ (-1)); lia. }
    rewrite Hu.
    assert (Hsum : ((hc + (configured + 4294967296)) mod 4294967296
                    = if (hc + configured <? 0)%Z
                      then hc + configured + 4294967296
                      else hc + configured)%Z).
    { destruct (Z.ltb_spec (hc + configured) 0).
      - symmetry. apply (Z.mod_unique _ _ 0); lia.
      - symmetry. apply (Z.mod_unique _ _ 1); lia. }
    rewrite Hsum. rewrite Z.abs_neq by lia.
    replace (hc - - configured)%Z with (hc + configured)%Z by lia.
    destruct (Z.ltb_spec (hc + configured) 0) as [Hlow|Hhigh].
    + rewrite (Z.mod_small (hc + configured + 4294967296)) by lia.
      destruct (Z.ltb_spec (hc + configured + 4294967296) 2147483648);
        [lia|].
      destruct (Z.ltb_spec (hc + configured + 4294967296 - 4294967296) 1);
        [|lia].
      destruct (Z.ltb_spec (hc + configured) 1); [reflexivity | lia].
    + rewrite (Z.mod_small (hc + configured)) by lia.
      destruct (Z.ltb_spec (hc + configured) 2147483648); [|lia].
      reflexivity.
Qed.

Lemma processConnection_threads s key queues threads' s' :
  processConnection E s key queues threads' = Return s' ->
  threads s' = threads'.
Proof.
  unfold processConnection. destruct key as [bson scan].
  destruct queues as [lq lqs].
  destruct (negb _); [discriminate|].
  intros H; injection H as <-. reflexivity.
Qed.

(** C9. On a machine with fewer than 2^30 hardware threads, once the key
    and the load queues have been accepted, [process] resolves the thread
    count as specified: the count computed with the wrap-around of [int]
    and [unsigned] is the specified one, a specified error ends [process]
    with that one message, and otherwise the value stored in [threads] is
    the specified count. *)
Theorem C9_thread_count_is_resolved_as_specified s key queues :
  (0 <= hardware_concurrency E < 2 ^ 30)%Z ->
  (- 2 ^ 31 <= threads s < 2 ^ 31)%Z ->
  processShardKey E s = Return key ->
  processLoadQueues E s = Return queues ->
  resolveThreads E (threads s)
    = threads_as_specified (hardware_concurrency E) (threads s) /\
  process E s
    = bind (threads_as_specified (hardware_concurrency E) (threads s))
           (processConnection E s key queues) /\
  (forall msg,
     threads_as_specified (hardware_concurrency E) (threads s) = Exit msg ->
     process E s = Exit msg) /\
  (forall threads' s',
     threads_as_specified (hardware_concurrency E) (threads s)
       = Return threads' ->
     process E s = Return s' -> threads s' = threads').
Proof.
  intros Hhc Ht Hkey Hq.
  pose proof (resolveThreads_as_specified Hhc Ht) as Hr.
  assert (Hp : process E s
               = bind (threads_as_specified (hardware_concurrency E) (threads s))
                      (processConnection E s key queues)).
  { unfold process. rewrite Hkey, Hq, Hr. reflexivity. }
  split; [exact Hr|]. split; [exact Hp|]. split.
  - intros msg Hm. rewrite Hp, Hm. reflexivity.
  - intros threads' s' Hm Hs. rewrite Hp, Hm in Hs. cbn [bind] in Hs.
    exact (processConnection_threads _ _ _ _ Hs).
Qed.

Lemma existsb_names_id keys :
  existsb names_id keys = true <-> In "_id"%string (map fieldName keys).
Proof.
  rewrite existsb_exists, in_map_iff. unfold names_id.
  split; intros [e [H1 H2]]; exists e.
  - apply String.eqb_eq in H2. auto.
  - split; [exact H2 | apply String.eqb_eq; exact H1].
Qed.

Lemma processShardKey_indexHas_id s keys scan :
  processShardKey E s = Return (keys, scan) ->
  scan_indexHas_id scan = sharded s && existsb names_id keys /\
  (sharded s = true -> fromjson E (shardKeyJson s) = Some keys).
Proof.
  unfold processShardKey.
  destruct (sharded s).
  - destruct (String.eqb (shardKeyJson s) EmptyString); [discriminate|].
    destruct (fromjson E (shardKeyJson s)) as [bson|]; [|discriminate].
    cbn [lift bind]. intros H.
    apply bind_Return_inv in H as [st [Hrun H]].
    destruct (scan_hashed st && (1 <? scan_count st)); [discriminate|].
    injection H as <- <-.
    split; [|reflexivity].
    destruct (forallb field_ok bson) eqn:Hok.
    + destruct (scanShardKeys_accepts bson
                  (mkKeyScan (hashed s) (shardKeyFields s) false
                             size_t_minus_one 0) Hok)
        as [st' [Hrun' [_ [_ [H3 _]]]]].
      rewrite Hrun in Hrun'. injection Hrun' as <-. exact H3.
    + exfalso. revert Hrun. apply scanShardKeys_rejects. exact Hok.
  - intros H; injection H as <- <-. split; [reflexivity | discriminate].
Qed.

(** C10. When [process] returns, [add_id] is its configured value and-ed
    with [indexHas_id], and [indexHas_id] holds exactly when the load is
    sharded and the key document, which is the parsed [shardKeyJson], has a
    field [_id]. So [add_id] is true only for a key that includes [_id],
    and for a key without [_id] it is false whatever was configured. *)
Theorem C10_add_id_only_when_key_has_id s s' :
  process E s = Return s' ->
  add_id s' = add_id s && indexHas_id s' /\
  (indexHas_id s' = true <->
   sharded s = true /\ In "_id"%string (map fieldName (shardKeysBson s'))) /\
  (sharded s = true -> fromjson E (shardKeyJson s) = Some (shardKeysBson s')) /\
  (add_id s' = true -> In "_id"%string (map fieldName (shardKeysBson s'))) /\
  (~ In "_id"%string (map fieldName (shardKeysBson s')) -> add_id s' = false).
Proof.
  unfold process. intros H.
  apply bind_Return_inv in H as [[keys scan] [Hkey H]].
  apply bind_Return_inv in H as [[lq lqs] [_ H]].
  apply bind_Return_inv in H as [threads' [_ H]].
  unfold processConnection in H.
  destruct (negb _); [discriminate|].
  injection H as <-.
  cbn [add_id indexHas_id shardKeysBson].
  destruct (processShardKey_indexHas_id _ Hkey) as [Hid Hjson].
  assert (Hiff : scan_indexHas_id scan = true <->
                 sharded s = true /\ In "_id"%string (map fieldName keys)).
  { rewrite Hid, andb_true_iff, existsb_names_id. tauto. }
  split; [destruct (scan_indexHas_id scan), (add_id s); reflexivity|].
  split; [exact Hiff|]. split; [exact Hjson|]. split.
  - destruct (scan_indexHas_id scan); simpl; [|discriminate].
    intros _. apply Hiff. reflexivity.
  - intros Hno. destruct (scan_indexHas_id scan); simpl; [|reflexivity].
    exfalso. apply Hno, Hiff. reflexivity.
Qed.

End SettingsFacts.

(** ** Cluster set-up *)

Section LoaderFacts.

Import Loader.

Ltac setup_case :=
  cbn; split; [reflexivity | intuition (discriminate || congruence)].

Lemma setupLoad_outcome_ignores_enableSharding
    (C : Cluster) (s : Settings.t) :
  snd (setupLoad C s) = snd (setupLoad (answer_enableSharding true C) s) /\
  (In (Cerr ShardingDbFailed) (fst (setupLoad C s)) <->
   In (EnableSharding (Settings.database s)) (fst (setupLoad C s)) /\
   enableSharding C = false /\
   enableSharding_info_ok C <> 0%Z).
Proof.
  unfold setupLoad, answer_enableSharding.
  cbn [isSharded stopBalancerWait connect_error enableSharding
       enableSharding_info_ok shardCollection shards_size].
  destruct (Settings.sharded s), (isSharded C);
    try solve [setup_case];
    destruct (String.eqb (connect_error C) EmptyString);
    destruct (Settings.stopBalancer s);
    try solve [setup_case];
    destruct (Settings.dropDb s), (Settings.dropColl s),
             (Settings.dropIndexes s), (stopBalancerWait C);
    try solve [setup_case];
    destruct (Settings.chunksPerShard s =? 0), (Settings.hashed s),
             (shardCollection C), (enableSharding C),
             (Z.eqb_spec (enableSharding_info_ok C) 0);
    setup_case.
Qed.

Lemma setupLoad_after_failed_enableSharding (C : Cluster) (s : Settings.t) :
  Settings.sharded s = true ->
  isSharded C = true ->
  connect_error C = EmptyString ->
  Settings.stopBalancer s && stopBalancerWait C = false ->
  Settings.chunksPerShard s <> 0 ->
  enableSharding C = false ->
  fst (setupLoad C s)
  = (if Settings.stopBalancer s then [BalancerStop] else [])
    ++ LoaderWords.requested_drop s
    ++ [EnableSharding (Settings.database s)]
    ++ (if (enableSharding_info_ok C =? 0)%Z then []
        else [Cerr ShardingDbFailed])
    ++ [ShardCollection (Settings.ns s)
          (if Settings.hashed s
           then Some (to_int (Z.of_nat (Settings.chunksPerShard s)
                              * Z.of_nat (shards_size C)))
           else None)]
    ++ (if Settings.hashed s && shardCollection C
        then [WaitForChunksPerShard (Settings.ns s)
                                    (Settings.chunksPerShard s)]
        else [])
  /\
  snd (setupLoad C s)
  = (if shardCollection C then Return tt
     else Exit ShardingCollectionFailed).
Proof.
  intros Hsh Hcl Hco Hbal Hch Hen.
  unfold setupLoad, LoaderWords.requested_drop.
  rewrite Hsh, Hcl, Hco, Hen. cbn [andb negb String.eqb].
  rewrite Hbal.
  destruct (Nat.eqb_spec (Settings.chunksPerShard s) 0); [contradiction|].
  destruct (Settings.stopBalancer s), (Settings.dropDb s),
           (Settings.dropColl s), (Settings.dropIndexes s),
           (Z.eqb_spec (enableSharding_info_ok C) 0),
           (Settings.hashed s), (shardCollection C);
    cbn; split; reflexivity.
Qed.

(** C1, as the code has it. How [setupLoad] ends does not depend on the
    answer of [enableSharding]: a failure there never aborts the load. The
    only trace of the failure is the line [Sharding db failed] on
    [std::cerr], written exactly when the call was made, failed, and left
    a non-zero [ok] in the reply. And when the call has failed, in a
    sharded load with at least one chunk per shard, set-up goes on:
    [shardCollection] is the next call, [setupLoad] returns when it
    succeeds and exits with [Sharding collection failed] when it fails. *)
Theorem C1_enableSharding_failure_is_not_fatal
    (C : Cluster) (s : Settings.t) :
  snd (setupLoad C s) = snd (setupLoad (answer_enableSharding true C) s) /\
  (In (Cerr ShardingDbFailed) (fst (setupLoad C s)) <->
   In (EnableSharding (Settings.database s)) (fst (setupLoad C s)) /\
   enableSharding C = false /\
   enableSharding_info_ok C <> 0%Z) /\
  (Settings.sharded s = true ->
   isSharded C = true ->
   connect_error C = EmptyString ->
   Settings.stopBalancer s && stopBalancerWait C = false ->
   Settings.chunksPerShard s <> 0 ->
   enableSharding C = false ->
   fst (setupLoad C s)
   = (if Settings.stopBalancer s then [BalancerStop] else [])
     ++ LoaderWords.requested_drop s
     ++ [EnableSharding (Settings.database s)]
     ++ (if (enableSharding_info_ok C =? 0)%Z then []
         else [Cerr ShardingDbFailed])
     ++ [ShardCollection (Settings.ns s)
           (if Settings.hashed s
            then Some (to_int (Z.of_nat (Settings.chunksPerShard s)
                               * Z.of_nat (shards_size C)))
            else None)]
     ++ (if Settings.hashed s && shardCollection C
         then [WaitForChunksPerShard (Settings.ns s)
                                     (Settings.chunksPerShard s)]
         else [])
   /\
   snd (setupLoad C s)
   = (if shardCollection C then Return tt
      else Exit ShardingCollectionFailed)).
Proof.
  destruct (setupLoad_outcome_ignores_enableSharding C s) as [H1 H2].
  split; [exact H1|]. split; [exact H2|].
  apply setupLoad_after_failed_enableSharding.
Qed.

End LoaderFacts.

(** A sharded load on a cluster that refuses [enableSharding] with
    [ok = 0]: nothing is written to [std::cerr], the collection is
    sharded, and [setupLoad] returns. *)
Lemma C1_setupLoad_returns_after_enableSharding_failure :
  Settings.process (Samples.env 4) (Samples.settings "{region:1}" 4 false)
    = Return Samples.processedRegionSettings /\
  Loader.enableSharding FurtherSamples.clusterEnableShardingRefused = false /\
  Loader.setupLoad FurtherSamples.clusterEnableShardingRefused
                   Samples.processedRegionSettings
  = ([Loader.EnableSharding "test"; Loader.ShardCollection "test.docs" None],
     Return tt).
Proof. repeat split. Qed.

Lemma C1_enableSharding_failure_witness :
  (fst (Loader.setupLoad FurtherSamples.clusterEnableShardingRefused
                         Samples.processedRegionSettings)
   = [Loader.EnableSharding "test"; Loader.ShardCollection "test.docs" None]
   /\
   snd (Loader.setupLoad FurtherSamples.clusterEnableShardingRefused
                         Samples.processedRegionSettings)
   = Return tt) /\
  snd (Loader.setupLoad FurtherSamples.clusterNothingCanBeSharded
                        Samples.processedRegionSettings)
  = Exit Loader.ShardingCollectionFailed.
Proof.
  split.
  - refine (proj2 (proj2 (C1_enableSharding_failure_is_not_fatal
                            FurtherSamples.clusterEnableShardingRefused
                            Samples.processedRegionSettings))
                  _ _ _ _ _ _);
      try reflexivity.
    discriminate.
  - refine (proj2 (proj2 (proj2 (C1_enableSharding_failure_is_not_fatal
                                   FurtherSamples.clusterNothingCanBeSharded
                                   Samples.processedRegionSettings))
                         _ _ _ _ _ _));
      try reflexivity.
    discriminate.
Defined.

(** The key [{user_id: hashed, region: 1}] has one hashed field and one
    field of direction 1; [process] ends with the message that only a single
    field can be hashed. *)
Lemma C6_hashed_field_beside_another_is_fatal :
  Settings.at_most_one_hashed Samples.hashedCompoundKey = true /\
  Settings.fromjson (Samples.env 4) "{user_id:'hashed',region:1}"
    = Some Samples.hashedCompoundKey /\
  Settings.process (Samples.env 4)
                   (Samples.settings "{user_id:'hashed',region:1}" 0 false)
    = Exit Settings.HashedSingleFieldOnly.
Proof. repeat split. Qed.

Lemma C6_hashed_key_witness :
  (exists r,
     Settings.processShardKey
       (FurtherSamples.env 4)
       (Samples.settings "{user_id:'hashed'}" 0 false)
     = Return r) /\
  ~ (exists r,
       Settings.processShardKey
         (Samples.env 4)
         (Samples.settings "{user_id:'hashed',region:1}" 0 false)
       = Return r) /\
  Settings.process (Samples.env 4)
                   (Samples.settings "{user_id:'hashed',region:1}" 0 false)
    = Exit Settings.HashedSingleFieldOnly.
Proof.
  destruct (@C6_hashed_key_is_a_single_field
              (FurtherSamples.env 4)
              (Samples.settings "{user_id:'hashed'}" 0 false)
              FurtherSamples.hashedKey)
    as [Halone _]; [reflexivity | discriminate | reflexivity | reflexivity |].
  destruct (@C6_hashed_key_is_a_single_field
              (Samples.env 4)
              (Samples.settings "{user_id:'hashed',region:1}" 0 false)
              Samples.hashedCompoundKey)
    as [Hbeside Hexit]; [reflexivity | discriminate | reflexivity | reflexivity |].
  split; [|split].
  - apply Halone. reflexivity.
  - intros H. apply Hbeside in H. discriminate H.
  - apply Hexit; [reflexivity | reflexivity | simpl; lia].
Defined.

Lemma C9_thread_count_witness :
  Settings.process (Samples.env 4) (Samples.settings "{_id:1}" (-6) true)
    = Exit (Settings.ThreadsLessThanOne 4 6) /\
  forall s',
    Settings.process (Samples.env 4) (Samples.settings "{_id:1}" (-1) true)
      = Return s' ->
    Settings.threads s' = 3%Z.
Proof.
  split.
  - refine (proj1 (proj2 (proj2
             (@C9_thread_count_is_resolved_as_specified
                (Samples.env 4) (Samples.settings "{_id:1}" (-6) true)
                (Samples.idKey,
                 Settings.mkKeyScan false ["_id"%string] true 0 1)
                (Samples.oneRamQueue, ["ram"%string]) _ _ _ _))) _ _).
    + simpl; lia.
    + simpl; lia.
    + reflexivity.
    + reflexivity.
    + reflexivity.
  - intros s'.
    refine (proj2 (proj2 (proj2
             (@C9_thread_count_is_resolved_as_specified
                (Samples.env 4) (Samples.settings "{_id:1}" (-1) true)
                (Samples.idKey,
                 Settings.mkKeyScan false ["_id"%string] true 0 1)
                (Samples.oneRamQueue, ["ram"%string]) _ _ _ _))) 3%Z s' _).
    + simpl; lia.
    + simpl; lia.
    + reflexivity.
    + reflexivity.
    + reflexivity.
Defined.

(** The least [int] as the configured count: the message shows what
    [std::abs] makes of it. *)
Lemma resolveThreads_at_the_least_int :
  Settings.resolveThreads (Samples.env 4) (-2147483648)
  = Exit (Settings.ThreadsLessThanOne 4 (-2147483648)) /\
  Settings.threads_as_specified 4 (-2147483648)
  = Exit (Settings.ThreadsLessThanOne 4 (-2147483648)).
Proof. split; reflexivity. Qed.

Lemma C10_add_id_witness :
  exists s',
    Settings.process (Samples.env 4) (Samples.settings "{_id:1}" 0 true)
      = Return s' /\
    Settings.add_id s' = true /\
    In "_id"%string (map Bson.fieldName (Settings.shardKeysBson s')).
Proof.
  eexists. split; [reflexivity|]. split; [reflexivity|].
  refine (proj1 (proj2 (proj2 (proj2
           (@C10_add_id_only_when_key_has_id
              (Samples.env 4) (Samples.settings "{_id:1}" 0 true) _ _)))) _);
    reflexivity.
Defined.

(* ===================================================================== *)
(** * Further properties of the same code *)
(* ===================================================================== *)

(** ** The round-robin cursor, call by call *)

Section RoundRobinMore.

Import RoundRobin RoundRobinRun.

Variable Value : Type.
Variable Value_eq_dec : forall x y : Value, {x = y} + {x <> y}.
Implicit Types (rr : RoundRobin.t Value) (c : list Value) (x y : Value).

Lemma advance_mod n p : p < n -> advance n p = (p + 1) mod n.
Proof.
  intros Hp. unfold advance. rewrite Nat.add_1_r.
  destruct (Nat.eqb_spec (S p) n) as [E|E].
  - subst n. symmetry. apply Nat.Div0.mod_same.
  - symmetry. apply Nat.mod_small. lia.
Qed.

Lemma nexts_app : forall j k rr,
  nexts (j + k) rr = nexts j rr ++ nexts k (after j rr).
Proof.
  induction j as [|j IH]; intros k rr; [reflexivity|].
  cbn [Nat.add nexts after]. destruct (next rr) as [r rr'] eqn:Hn.
  cbn [snd]. rewrite IH. reflexivity.
Qed.

Lemma after_app : forall j k rr, after (j + k) rr = after k (after j rr).
Proof.
  induction j as [|j IH]; intros k rr; [reflexivity|].
  cbn [Nat.add after]. apply IH.
Qed.

Lemma run_from_position c : forall k p,
  p < length c ->
  nexts k (mk c p)
    = map (fun j => nth_error c ((p + j) mod length c)) (seq 1 k) /\
  after k (mk c p) = mk c ((p + k) mod length c).
Proof.
  induction k as [|k IH]; intros p Hp.
  - split; [reflexivity|]. cbn [after]. rewrite Nat.add_0_r.
    rewrite Nat.mod_small by exact Hp. reflexivity.
  - destruct (next_in_range c Hp) as [y [Hy Hn]].
    pose proof (advance_lt Hp) as Ha.
    destruct (IH _ Ha) as [IH1 IH2].
    cbn [nexts after]. rewrite Hn. cbn [snd]. rewrite IH1, IH2.
    rewrite (advance_mod Hp).
    split.
    + cbn [seq map]. f_equal.
      * rewrite <- Hy, (advance_mod Hp). reflexivity.
      * rewrite <- (seq_shift k 1), map_map. apply map_ext. intros j.
        rewrite Nat.Div0.add_mod_idemp_l. f_equal. f_equal. lia.
    + f_equal. rewrite Nat.Div0.add_mod_idemp_l. f_equal. lia.
Qed.

(** X1. From a cursor at position [p] of a container of [n] elements, the
    [j]-th call of [next] returns the element at index [(p + j) mod n], and
    after [k] calls the cursor is at [(p + k) mod n]; after [n] calls it is
    back where it was. *)
Theorem RoundRobin_call_returns_index_mod c p k :
  p < length c ->
  nexts k (mk c p)
    = map (fun j => nth_error c ((p + j) mod length c)) (seq 1 k) /\
  after k (mk c p) = mk c ((p + k) mod length c) /\
  after (length c) (mk c p) = mk c p.
Proof.
  intros Hp. destruct (run_from_position c k Hp) as [H1 H2].
  split; [exact H1|]. split; [exact H2|].
  destruct (run_from_position c (length c) Hp) as [_ H3].
  rewrite H3. f_equal.
  replace (p + length c) with (p + 1 * length c) by lia.
  rewrite Nat.Div0.mod_add. apply Nat.mod_small, Hp.
Qed.

Lemma firstn_seq_nth : forall (l : list Value) b,
  map (fun j => nth_error (b ++ l) (length b + j)) (seq 0 (length l))
  = map Some l.
Proof.
  induction l as [|x l IH]; intros b; [reflexivity|].
  cbn [length seq map]. f_equal.
  - rewrite Nat.add_0_r, nth_error_app2 by lia.
    rewrite Nat.sub_diag. reflexivity.
  - rewrite <- seq_shift, map_map.
    specialize (IH (b ++ [x])). rewrite <- app_assoc in IH. cbn [app] in IH.
    rewrite <- IH. apply map_ext. intros j. rewrite length_app. cbn [length].
    f_equal. lia.
Qed.

(** X2. A cursor built over [a :: rest] returns the elements of [rest] in
    order and [a] after them: the first element of the container is the
    last of the first round. The cursor then stands as it was built, so
    every round is the same. *)
Theorem RoundRobin_first_element_comes_last (a : Value) (rest : list Value) :
  nexts (length (a :: rest)) (make (a :: rest)) = map Some (rest ++ [a]) /\
  after (length (a :: rest)) (make (a :: rest)) = make (a :: rest).
Proof.
  assert (Hp : 0 < length (a :: rest)) by (simpl; lia).
  split.
  - unfold make, init. cbn [_container].
    destruct (run_from_position (a :: rest) (length (a :: rest)) Hp) as [H _].
    rewrite H. cbn [length]. rewrite seq_S, map_app, map_app. f_equal.
    + rewrite <- seq_shift, map_map.
      rewrite <- (firstn_seq_nth rest [a]).
      apply map_ext_in. intros j Hj. apply in_seq in Hj.
      cbn [Nat.add length app]. rewrite Nat.mod_small by lia. reflexivity.
    + cbn [map Nat.add]. rewrite Nat.Div0.mod_same. reflexivity.
  - unfold make, init. cbn [_container].
    destruct (run_from_position (a :: rest) (length (a :: rest)) Hp) as [_ H].
    rewrite H. cbn [Nat.add]. rewrite Nat.Div0.mod_same. reflexivity.
Qed.

Lemma filter_keeps_all (f : Value -> bool) : forall l,
  (forall y, In y l -> f y = true) -> filter f l = l.
Proof.
  induction l as [|y l IH]; intros H; [reflexivity|].
  cbn [filter]. rewrite (H y (or_introl eq_refl)). f_equal.
  apply IH. intros z Hz. apply H. right. exact Hz.
Qed.

Lemma filter_comm (f g : Value -> bool) : forall l,
  filter f (filter g l) = filter g (filter f l).
Proof.
  induction l as [|y l IH]; [reflexivity|].
  cbn [filter]. destruct (f y) eqn:Hf, (g y) eqn:Hg; cbn [filter];
    rewrite ?Hf, ?Hg, IH; reflexivity.
Qed.

(** X3. [remove x] on a cursor that does not hold [x] leaves the container
    as it is and still puts the cursor back at the beginning. *)
Theorem RoundRobin_remove_absent_resets_cursor rr x :
  ~ In x (_container rr) ->
  remove Value_eq_dec x rr = make (_container rr).
Proof.
  intros Hx. unfold remove, make, init. cbn [_container]. f_equal.
  apply filter_keeps_all. intros y Hy.
  destruct (Value_eq_dec y x); [subst; contradiction | reflexivity].
Qed.

(** X4. [remove x] drops the occurrences of [x] and nothing else: every
    other value keeps its number of occurrences and its place among the
    others, and the size goes down by the number of occurrences of [x]. *)
Theorem RoundRobin_remove_drops_only_that_value rr x y :
  count_occ Value_eq_dec (_container (remove Value_eq_dec x rr)) y
    = (if Value_eq_dec y x then 0
       else count_occ Value_eq_dec (_container rr) y) /\
  length (_container (remove Value_eq_dec x rr))
    + count_occ Value_eq_dec (_container rr) x
    = length (_container rr) /\
  (In y (_container (remove Value_eq_dec x rr)) <->
   In y (_container rr) /\ y <> x).
Proof.
  unfold remove, init. cbn [_container].
  induction (_container rr) as [|z l [IH1 [IH2 IH3]]].
  - cbn. destruct (Value_eq_dec y x); tauto.
  - cbn [filter count_occ length].
    destruct (Value_eq_dec z x) as [Ezx|Ezx].
    + subst z. split; [|split].
      * rewrite IH1. destruct (Value_eq_dec y x) as [E|E]; [reflexivity|].
        destruct (Value_eq_dec x y); [congruence | reflexivity].
      * destruct (Value_eq_dec x x); [lia | congruence].
      * rewrite IH3. cbn [In]. intuition congruence.
    + cbn [count_occ length In]. split; [|split].
      * destruct (Value_eq_dec z y) as [Ezy|Ezy].
        -- subst z. destruct (Value_eq_dec y x); [congruence|].
           rewrite IH1. destruct (Value_eq_dec y x); [congruence|reflexivity].
        -- exact IH1.
      * destruct (Value_eq_dec z x); [congruence | lia].
      * rewrite IH3. intuition congruence.
Qed.

(** X5. Removing the same value twice is removing it once, and two removes
    give the same cursor in either order. *)
Theorem RoundRobin_remove_idempotent_and_commutes rr x y :
  remove Value_eq_dec x (remove Value_eq_dec x rr) = remove Value_eq_dec x rr /\
  remove Value_eq_dec x (remove Value_eq_dec y rr)
    = remove Value_eq_dec y (remove Value_eq_dec x rr).
Proof.
  unfold remove, init. cbn [_container]. split; f_equal.
  - apply filter_keeps_all. intros z Hz. apply filter_In in Hz. tauto.
  - apply filter_comm.
Qed.

End RoundRobinMore.

Lemma RoundRobin_call_returns_index_mod_witness :
  RoundRobin.nexts 4 (RoundRobin.mk [10; 20; 30] 1)
    = [Some 30; Some 10; Some 20; Some 30].
Proof.
  refine (eq_trans (proj1 (@RoundRobin_call_returns_index_mod
                             nat [10; 20; 30] 1 4 _)) _).
  - simpl; lia.
  - reflexivity.
Defined.

Lemma RoundRobin_remove_absent_witness :
  RoundRobin.remove Nat.eq_dec 7 (RoundRobin.mk [10; 20; 30] 2)
    = RoundRobin.make [10; 20; 30].
Proof.
  apply (@RoundRobin_remove_absent_resets_cursor nat Nat.eq_dec).
  simpl. intuition discriminate.
Defined.

(** ** The bounded wait-queue: where the values go *)

Section SetNth.

Import WaitQueue.

Variables (A B : Type) (f : A -> list B).

Lemma concat_map_set_nth : forall (l : list A) i x y,
  nth_error l i = Some x ->
  exists others,
    Permutation (concat (map f l)) (f x ++ others) /\
    Permutation (concat (map f (set_nth i y l))) (f y ++ others).
Proof.
  induction l as [|a l IH]; intros i x y Hi.
  - destruct i; discriminate.
  - destruct i as [|i]; cbn [nth_error] in Hi.
    + injection Hi as ->. exists (concat (map f l)).
      cbn [set_nth map concat]. split; reflexivity.
    + destruct (IH i x y Hi) as [others [H1 H2]].
      exists (f a ++ others). cbn [set_nth map concat]. split.
      * rewrite H1. rewrite !app_assoc.
        apply Permutation_app_tail, Permutation_app_comm.
      * rewrite H2. rewrite !app_assoc.
        apply Permutation_app_tail, Permutation_app_comm.
Qed.

Lemma concat_map_app (g : A -> list B) : forall l : list A,
  Permutation (concat (map (fun a => f a ++ g a) l))
              (concat (map f l) ++ concat (map g l)).
Proof.
  induction l as [|a l IH]; [reflexivity|].
  cbn [map concat]. rewrite IH. rewrite <- !app_assoc.
  apply Permutation_app_head. rewrite !app_assoc.
  apply Permutation_app_tail, Permutation_app_comm.
Qed.

End SetNth.

Section WaitQueueMore.

Import WaitQueue WaitQueueAccounts.

Variable Value : Type.
Implicit Types (q : WaitQueue.t Value) (v : Value) (th : thread Value).

(** What one thread holds: the values it was handed and those it has not
    inserted yet. *)
Let held th : list Value := values (popped th) ++ pending th.

Lemma values_app : forall (rs rs' : list (option Value)),
  values (rs ++ rs') = values rs ++ values rs'.
Proof.
  induction rs as [|[v|] rs IH]; intros rs'; cbn [app values];
    rewrite ?IH; reflexivity.
Qed.

Lemma thread_step_conserves th q q' th' evs :
  thread_step th q = (q', th', evs) ->
  Permutation (_queue q' ++ held th') (_queue q ++ held th).
Proof.
  unfold thread_step, pop_step, held, pending.
  destruct th as [pcv td got]. cbn [at_pc todo popped].
  assert (Hpop : forall rest,
    (match pop q with
     | PopWait => (q, mkThread InPopWait rest got, [])
     | PopFalse => (q, mkThread Running rest (got ++ [None]), [EvPopFalse])
     | PopTrue v q1 w =>
         (q1, mkThread Running rest (got ++ [Some v]), [EvPop (size q) w])
     end) = (q', th', evs) ->
    Permutation
      (_queue q' ++ values (popped th') ++
       match at_pc th' with
       | InPushWait v => v :: pushes_of (todo th')
       | _ => pushes_of (todo th')
       end)
      (_queue q ++ values got ++ pushes_of rest)).
  { intros rest. unfold pop.
    destruct (negb (empty q) || _endWait q).
    - destruct (_queue q) as [|x qs] eqn:Hq; intros H;
        injection H as <- <- <-; cbn [_queue at_pc todo popped].
      + rewrite Hq, values_app. cbn [values]. rewrite app_nil_r. reflexivity.
      + rewrite values_app. cbn [values]. rewrite <- app_assoc. cbn [app].
        symmetry. rewrite !app_assoc. apply Permutation_middle.
    - intros H; injection H as <- <- <-. reflexivity. }
  destruct pcv as [|v|].
  - destruct td as [|[v| |] rest].
    + intros H; injection H as <- <- <-. reflexivity.
    + unfold push. destruct (negb (full q)); intros H;
        injection H as <- <- <-; cbn [_queue emplace at_pc todo popped pushes_of].
      * rewrite <- app_assoc. cbn [app]. apply Permutation_app_head.
        apply Permutation_middle.
      * reflexivity.
    + cbn [pushes_of]. apply Hpop.
    + intros H; injection H as <- <- <-. reflexivity.
  - unfold push_resume. destruct (negb (full q)); intros H;
      injection H as <- <- <-; cbn [_queue emplace at_pc todo popped].
    + rewrite <- app_assoc. cbn [app]. apply Permutation_app_head.
      apply Permutation_middle.
    + reflexivity.
  - apply Hpop.
Qed.

Lemma step_conserves i (s : system Value) :
  Permutation
    (_queue (queue (step i s)) ++ concat (map held (threads (step i s))))
    (_queue (queue s) ++ concat (map held (threads s))).
Proof.
  unfold step. destruct (nth_error (threads s) i) as [th|] eqn:Hi;
    [|reflexivity].
  destruct (thread_step th (queue s)) as [[q' th'] evs] eqn:Hts.
  cbn [queue threads].
  destruct (concat_map_set_nth held (threads s) i th' Hi) as [others [H1 H2]].
  rewrite H1, H2, !app_assoc. apply Permutation_app_tail.
  exact (thread_step_conserves _ _ Hts).
Qed.

Lemma run_conserves : forall schedule (s : system Value),
  Permutation
    (_queue (queue (run schedule s))
     ++ concat (map held (threads (run schedule s))))
    (_queue (queue s) ++ concat (map held (threads s))).
Proof.
  induction schedule as [|i schedule IH]; intros s; [reflexivity|].
  cbn [run fold_left]. fold (run schedule (step i s)).
  rewrite IH. apply step_conserves.
Qed.

(** X6. Whatever the threads and the order in which they run, no value is
    lost and none is made up: the values handed to the threads by [pop],
    those in the queue and those not inserted yet are, taken together, the
    values the programs push, each as many times as it is pushed. *)
Theorem WaitQueue_values_are_conserved
    (N : nat) (programs : list (list (call Value))) (schedule : list nat) :
  let s := run schedule (init N programs) in
  Permutation
    (concat (map (fun th => values (popped th)) (threads s))
     ++ _queue (queue s)
     ++ concat (map (@pending Value) (threads s)))
    (concat (map (@pushes_of Value) programs)).
Proof.
  intros s.
  pose proof (run_conserves schedule (init N programs)) as H. fold s in H.
  cbn [init queue threads make _queue app] in H.
  rewrite map_map in H. cbn [held popped values pending at_pc todo app] in H.
  unfold held in H.
  rewrite <- H.
  rewrite (concat_map_app (fun th => values (popped th)) (@pending Value)).
  rewrite !app_assoc. apply Permutation_app_tail, Permutation_app_comm.
Qed.

(** What holds of a producer that never pops and a consumer that never
    pushes, at every moment of their run. *)
Let handed_over (producer : list (call Value)) (s : system Value) : Prop :=
  exists p c,
    threads s = [p; c] /\
    never_pops (todo p) = true /\ at_pc p <> InPopWait /\
    never_pushes (todo c) = true /\ (forall v, at_pc c <> InPushWait v) /\
    values (popped c) ++ _queue (queue s) ++ pending p = pushes_of producer.

Lemma producer_step_hands_over producer q p c th' q' evs tr :
  handed_over producer (mkSystem q [p; c] tr) ->
  thread_step p q = (q', th', evs) ->
  handed_over producer (mkSystem q' [th'; c] (tr ++ evs)).
Proof.
  intros [p0 [c0 [Hth [Hnp [Hpc [Hc1 [Hc2 Heq]]]]]]].
  cbn [threads queue] in *. injection Hth as <- <-.
  unfold thread_step, pop_step. unfold pending in Heq.
  destruct p as [pcv td got]. cbn [at_pc todo popped] in *.
  destruct pcv as [|v|]; [|
    |exfalso; apply Hpc; reflexivity].
  - destruct td as [|[v| |] rest]; cbn [never_pops forallb andb] in Hnp;
      try discriminate.
    + intros H; injection H as <- <- <-.
      exists (mkThread Running [] got), c. cbn [threads todo at_pc].
      repeat split; auto; discriminate.
    + unfold push. destruct (negb (full q)); intros H;
        injection H as <- <- <-.
      * exists (mkThread Running rest got), c.
        cbn [threads queue todo at_pc _queue emplace pending].
        repeat split; auto; try discriminate.
        unfold pending. cbn [at_pc todo]. rewrite <- Heq.
        cbn [pushes_of]. rewrite <- !app_assoc. reflexivity.
      * exists (mkThread (InPushWait v) rest got), c.
        cbn [threads queue todo at_pc].
        repeat split; auto; discriminate.
    + intros H; injection H as <- <- <-.
      exists (mkThread Running rest got), c.
      cbn [threads queue todo at_pc endWait fst _queue].
      repeat split; auto; discriminate.
  - unfold push_resume. destruct (negb (full q)); intros H;
      injection H as <- <- <-.
    + exists (mkThread Running td got), c.
      cbn [threads queue todo at_pc _queue emplace].
      repeat split; auto; try discriminate.
      unfold pending. cbn [at_pc todo]. rewrite <- Heq.
      rewrite <- !app_assoc. reflexivity.
    + exists (mkThread (InPushWait v) td got), c.
      cbn [threads queue todo at_pc].
      repeat split; auto; discriminate.
Qed.

Lemma consumer_pop_hands_over producer q p c q' th' evs tr rest :
  values (popped c) ++ _queue q ++ pending p = pushes_of producer ->
  never_pops (todo p) = true -> at_pc p <> InPopWait ->
  never_pushes rest = true ->
  pop_step c rest q = (q', th', evs) ->
  handed_over producer (mkSystem q' [p; th'] (tr ++ evs)).
Proof.
  intros Heq Hnp Hpc Hrest. unfold pop_step, pop.
  destruct (negb (empty q) || _endWait q).
  - destruct (_queue q) as [|x qs] eqn:Hq; intros H; injection H as <- <- <-.
    + exists p, (mkThread Running rest (popped c ++ [None])).
      cbn [threads queue todo at_pc popped].
      repeat split; auto; try discriminate.
      rewrite values_app, Hq. cbn [values]. rewrite app_nil_r. exact Heq.
    + exists p, (mkThread Running rest (popped c ++ [Some x])).
      cbn [threads queue todo at_pc popped _queue].
      repeat split; auto; try discriminate.
      rewrite values_app. cbn [values]. rewrite <- app_assoc. exact Heq.
  - intros H; injection H as <- <- <-.
    exists p, (mkThread InPopWait rest (popped c)).
    cbn [threads queue todo at_pc popped].
    repeat split; auto; discriminate.
Qed.

Lemma consumer_step_hands_over producer q p c th' q' evs tr :
  handed_over producer (mkSystem q [p; c] tr) ->
  thread_step c q = (q', th', evs) ->
  handed_over producer (mkSystem q' [p; th'] (tr ++ evs)).
Proof.
  intros [p0 [c0 [Hth [Hnp [Hpc [Hc1 [Hc2 Heq]]]]]]].
  cbn [threads queue] in *. injection Hth as <- <-.
  unfold thread_step.
  destruct (at_pc c) as [|v|] eqn:Hat;
    [| exfalso; exact (Hc2 v eq_refl) |].
  - destruct (todo c) as [|[v| |] rest] eqn:Htd;
      cbn [never_pushes forallb andb] in Hc1; try discriminate.
    + intros H; injection H as <- <- <-.
      exists p, c. cbn [threads queue]. rewrite Htd.
      repeat split; auto. intros v. rewrite Hat. discriminate.
    + apply consumer_pop_hands_over; assumption.
    + intros H; injection H as <- <- <-.
      exists p, (mkThread Running rest (popped c)).
      cbn [threads queue todo at_pc popped endWait fst _queue].
      repeat split; auto; discriminate.
  - apply consumer_pop_hands_over; assumption.
Qed.

Lemma run_hands_over producer : forall schedule (s : system Value),
  handed_over producer s -> handed_over producer (run schedule s).
Proof.
  induction schedule as [|i schedule IH]; intros s Hs; [exact Hs|].
  cbn [run fold_left]. apply IH.
  pose proof Hs as [p [c [Hth _]]].
  destruct s as [q ths tr]. cbn [threads] in Hth. subst ths.
  unfold step. cbn [threads queue trace].
  destruct i as [|[|i]]; cbn [nth_error].
  - destruct (thread_step p q) as [[q' th'] evs] eqn:Hts. cbn [set_nth].
    exact (producer_step_hands_over Hs Hts).
  - destruct (thread_step c q) as [[q' th'] evs] eqn:Hts. cbn [set_nth].
    exact (consumer_step_hands_over Hs Hts).
  - destruct i; exact Hs.
Qed.

(** X7. Between one thread that never pops and one thread that never
    pushes, the queue is first in, first out at every moment of every run:
    the values the consumer has been handed, followed by those in the
    queue, followed by those the producer has not inserted yet, are the
    values of the producer's program in the order it pushes them. *)
Theorem WaitQueue_single_producer_single_consumer_fifo
    (N : nat) (producer consumer : list (call Value)) (schedule : list nat) :
  never_pops producer = true ->
  never_pushes consumer = true ->
  let s := run schedule (init N [producer; consumer]) in
  exists p c,
    threads s = [p; c] /\
    values (popped c) ++ _queue (queue s) ++ pending p = pushes_of producer.
Proof.
  intros Hp Hc s.
  assert (H0 : handed_over producer (init N [producer; consumer])).
  { exists (mkThread Running producer []), (mkThread Running consumer []).
    cbn [init map threads queue make _queue todo at_pc popped values app].
    repeat split; auto; discriminate. }
  destruct (run_hands_over schedule H0) as [p [c [Hth [_ [_ [_ [_ Heq]]]]]]].
  exists p, c. split; assumption.
Qed.

(** X8. Hand-over at the two ends. On a full queue of capacity at least 1,
    [pop] returns the oldest value and issues [notify_one], and the parked
    producer that re-tests afterwards inserts. On an empty queue of
    capacity at least 1, [push] inserts and issues [notify_one], and the
    parked consumer that re-tests afterwards is handed that value. *)
Theorem WaitQueue_one_call_unblocks_the_other_side q v :
  0 < _queueMaxSize q ->
  (Z.of_nat (_queueMaxSize q) < size_t_modulus)%Z ->
  (size q = _queueMaxSize q ->
   exists oldest q',
     hd_error (_queue q) = Some oldest /\
     pop q = PopTrue oldest q' NotifyOne /\
     push_resume v q' = Some (emplace v q')) /\
  (_queue q = [] ->
   push v q = PushDone (emplace v q) NotifyOne /\
   exists w,
     pop (emplace v q)
       = PopTrue v (mk (_queueMaxSize q) [] (_endWait q)) w).
Proof.
  intros HN Hmod. split.
  - intros Hfull.
    destruct (_queue q) as [|x qs] eqn:Hq;
      [unfold size in Hfull; rewrite Hq in Hfull; simpl in Hfull; lia|].
    exists x, (mk (_queueMaxSize q) qs (_endWait q)).
    split; [reflexivity|]. split.
    + unfold pop, empty. rewrite Hq. cbn [negb orb].
      unfold tolimit. rewrite Hfull, Z.sub_diag. reflexivity.
    + unfold push_resume, full, size. cbn [_queueMaxSize _queue].
      unfold size in Hfull. rewrite Hq in Hfull. cbn [length] in Hfull.
      destruct (Nat.leb_spec (_queueMaxSize q) (length qs)); [lia|].
      reflexivity.
  - intros Hq. split.
    + unfold push, full, size. rewrite Hq. cbn [length].
      destruct (Nat.leb_spec (_queueMaxSize q) 0); [lia|]. reflexivity.
    + unfold pop, empty, emplace. cbn [_queue]. rewrite Hq. cbn [app negb orb].
      eexists. reflexivity.
Qed.

End WaitQueueMore.

Lemma WaitQueue_spsc_fifo_witness :
  let s := WaitQueue.run [0; 0; 1; 0; 1; 0]
             (WaitQueue.init 1
                [[WaitQueue.CallPush 1; WaitQueue.CallPush 2;
                  WaitQueue.CallPush 3];
                 [WaitQueue.CallPop; WaitQueue.CallPop]]) in
  exists p c,
    WaitQueue.threads s = [p; c] /\
    WaitQueueAccounts.values (WaitQueue.popped c)
      ++ WaitQueue._queue (WaitQueue.queue s)
      ++ WaitQueueAccounts.pending p
    = [1; 2; 3].
Proof.
  apply (@WaitQueue_single_producer_single_consumer_fifo nat 1
           [WaitQueue.CallPush 1; WaitQueue.CallPush 2; WaitQueue.CallPush 3]
           [WaitQueue.CallPop; WaitQueue.CallPop]);
    reflexivity.
Defined.

Lemma WaitQueue_unblock_witness :
  exists oldest q',
    hd_error [5; 6] = Some oldest /\
    WaitQueue.pop (WaitQueue.mk 2 [5; 6] false)
      = WaitQueue.PopTrue oldest q' NotifyOne /\
    WaitQueue.push_resume 9 q' = Some (WaitQueue.emplace 9 q').
Proof.
  refine (proj1 (@WaitQueue_one_call_unblocks_the_other_side nat
                   (WaitQueue.mk 2 [5; 6] false) 9 _ _) _).
  - simpl; lia.
  - reflexivity.
  - reflexivity.
Defined.

(** ** The thread pool's constructor *)

Lemma spawn_counts_down : forall fuel size threads,
  (1 <= size < WaitQueue.size_t_modulus)%Z ->
  ThreadPool.spawn fuel size threads
  = if (Z.of_nat fuel <? size)%Z then None
    else Some (threads + Z.to_nat size).
Proof.
  unfold WaitQueue.size_t_modulus.
  induction fuel as [|fuel IH]; intros size threads Hs.
  - cbn [ThreadPool.spawn]. destruct (Z.ltb_spec (Z.of_nat 0) size); [reflexivity|lia].
  - cbn [ThreadPool.spawn]. unfold WaitQueue.size_t_modulus.
    rewrite (Z.mod_small (size - 1)) by lia.
    destruct (Z.eqb_spec (size - 1) 0) as [E|E].
    + destruct (Z.ltb_spec (Z.of_nat (S fuel)) size); [lia|].
      f_equal. replace size with 1%Z by lia. simpl. lia.
    + rewrite IH by lia.
      destruct (Z.ltb_spec (Z.of_nat fuel) (size - 1));
        destruct (Z.ltb_spec (Z.of_nat (S fuel)) size); try lia;
        [reflexivity|].
      f_equal. lia.
Qed.

(** X9. [ThreadPool(size)] starts exactly [size] workers when [size] is at
    least 1. [ThreadPool(0)] does not give an empty pool: the loop body
    runs before the test, the decrement of the unsigned 0 wraps, and the
    loop ends only after 2^64 workers. *)
Theorem ThreadPool_constructor_worker_count (fuel : nat) (size : Z) :
  ((1 <= size < WaitQueue.size_t_modulus)%Z ->
   (size <= Z.of_nat fuel)%Z ->
   ThreadPool.spawn fuel size 0 = Some (Z.to_nat size)) /\
  ThreadPool.spawn fuel 0 0
  = if (Z.of_nat fuel <? WaitQueue.size_t_modulus)%Z then None
    else Some (Z.to_nat WaitQueue.size_t_modulus).
Proof.
  split.
  - intros Hs Hf. rewrite spawn_counts_down by exact Hs.
    destruct (Z.ltb_spec (Z.of_nat fuel) size); [lia | reflexivity].
  - destruct fuel as [|fuel].
    + reflexivity.
    + cbn [ThreadPool.spawn].
      change ((0 - 1) mod WaitQueue.size_t_modulus)%Z
        with (WaitQueue.size_t_modulus - 1)%Z.
      change (WaitQueue.size_t_modulus - 1 =? 0)%Z with false.
      cbv iota. rewrite spawn_counts_down
        by (unfold WaitQueue.size_t_modulus; lia).
      assert (HM : (1 < WaitQueue.size_t_modulus)%Z) by reflexivity.
      revert HM. generalize WaitQueue.size_t_modulus. intros M HM.
      destruct (Z.ltb_spec (Z.of_nat fuel) (M - 1));
        destruct (Z.ltb_spec (Z.of_nat (S fuel)) M);
        try lia; [reflexivity|].
      apply f_equal. lia.
Qed.

Lemma ThreadPool_constructor_witness :
  ThreadPool.spawn 5 3 0 = Some 3.
Proof.
  refine (proj1 (ThreadPool_constructor_worker_count 5 3) _ _).
  - unfold WaitQueue.size_t_modulus; simpl; lia.
  - simpl; lia.
Defined.

(** ** What [process] leaves in the settings *)

Lemma bind_assoc {Msg A B C : Type}
    (m : outcome Msg A) (f : A -> outcome Msg B) (g : B -> outcome Msg C) :
  bind (bind m f) g = bind m (fun a => bind (f a) g).
Proof. destruct m; reflexivity. Qed.

Lemma substring_prefix : forall a b : string,
  substring 0 (String.length a) (String.append a b) = a.
Proof.
  induction a as [|ch a IH]; intros b.
  - cbn. destruct b; reflexivity.
  - cbn [String.length String.append substring]. rewrite IH. reflexivity.
Qed.

Section SettingsMore.

Import Bson Settings SettingsWords.

Variable E : Env.
Implicit Types (s : Settings.t) (keys loads : Obj) (st : KeyScan).

Lemma process_Return_inv s s' :
  process E s = Return s' ->
  exists key queues threads',
    processShardKey E s = Return key /\
    processLoadQueues E s = Return queues /\
    resolveThreads E (threads s) = Return threads' /\
    processConnection E s key queues threads' = Return s'.
Proof.
  unfold process. intros H.
  apply bind_Return_inv in H as [key [Hkey H]].
  apply bind_Return_inv in H as [queues [Hq H]].
  apply bind_Return_inv in H as [threads' [Ht H]].
  exists key, queues, threads'. auto.
Qed.

Lemma processConnection_Return_inv s keys scan lq lqs threads' s' :
  processConnection E s (keys, scan) (lq, lqs) threads' = Return s' ->
  shardKeysBson s' = keys /\
  indexHas_id s' = scan_indexHas_id scan /\
  indexPos_id s' = scan_indexPos_id scan /\
  loadQueueBson s' = lq /\
  loadQueues s' = lqs /\
  chunksPerShard s' = length lqs /\
  threads s' = threads' /\
  ConnectionString_parse E (connstr s') = EmptyString /\
  connstr s'
  = (if String.eqb (substring 0 (String.length (uriStart E)) (connstr s))
                   (uriStart E)
     then connstr s
     else String.append (uriStart E) (connstr s)).
Proof.
  unfold processConnection.
  destruct (String.eqb (substring 0 (String.length (uriStart E)) (connstr s))
                       (uriStart E)) eqn:Hpre; cbn [negb];
    match goal with
    | |- context [ConnectionString_parse E ?c] =>
        destruct (String.eqb (ConnectionString_parse E c) EmptyString) eqn:He
    end; cbn [negb]; try discriminate;
    intros H; injection H as <-; cbn;
    apply String.eqb_eq in He; repeat split; auto.
Qed.

Lemma scanShardKeys_position : forall keys st st',
  scanShardKeys keys st = Return st' ->
  scan_indexPos_id st'
  = if scan_indexHas_id st then scan_indexPos_id st
    else match first_index names_id keys with
         | Some i => Z.of_nat (scan_count st + i)
         | None => scan_indexPos_id st
         end.
Proof.
  induction keys as [|key rest IH]; intros st st' H.
  - cbn in H. injection H as <-. destruct (scan_indexHas_id st); reflexivity.
  - cbn [scanShardKeys] in H.
    apply bind_Return_inv in H as [h [_ H]].
    apply IH in H.
    cbn [scan_indexHas_id scan_indexPos_id scan_count] in H.
    fold (names_id key) in H. cbn [first_index].
    destruct (scan_indexHas_id st); cbn [negb andb] in H.
    + exact H.
    + destruct (names_id key).
      * rewrite H, Nat.add_0_r. reflexivity.
      * rewrite H. destruct (first_index names_id rest) as [i|];
          [|reflexivity].
        f_equal. lia.
Qed.

(** X10. When [process] returns from a sharded load, [indexPos_id] is the
    index of the first field named [_id] in the key; when the key has no
    such field, or the load is not sharded, it is [size_t(-1)]. *)
Theorem process_indexPos_id_is_first_id_field s s' :
  process E s = Return s' ->
  indexPos_id s'
  = if sharded s then
      match first_index names_id (shardKeysBson s') with
      | Some i => Z.of_nat i
      | None => size_t_minus_one
      end
    else size_t_minus_one.
Proof.
  intros H.
  apply process_Return_inv in H
    as [[keys scan] [[lq lqs] [threads' [Hkey [_ [_ H]]]]]].
  apply processConnection_Return_inv in H as [-> [_ [-> _]]].
  unfold processShardKey in Hkey.
  destruct (sharded s).
  - destruct (String.eqb (shardKeyJson s) EmptyString); [discriminate|].
    destruct (fromjson E (shardKeyJson s)) as [bson|]; [|discriminate].
    cbn [lift bind] in Hkey.
    apply bind_Return_inv in Hkey as [st [Hrun Hkey]].
    destruct (scan_hashed st && (1 <? scan_count st)); [discriminate|].
    injection Hkey as <- <-.
    rewrite (scanShardKeys_position _ _ Hrun). reflexivity.
  - injection Hkey as <- <-. reflexivity.
Qed.

Lemma scanLoadQueues_Return_inv : forall loads queues qs,
  scanLoadQueues E loads queues = Return qs ->
  qs = queues ++ queues_of loads /\
  forall load, In load loads -> verifyKey E (fieldName load) = true.
Proof.
  induction loads as [|load rest IH]; intros queues qs H.
  - cbn in H. injection H as <-. cbn. rewrite app_nil_r. tauto.
  - cbn [scanLoadQueues] in H.
    destruct (verifyKey E (fieldName load)) eqn:Hv; cbn [negb] in H;
      [|discriminate].
    unfold isNumber, String_, Int in H.
    destruct (value load) as [n|n| |str|] eqn:Hval; cbn in H;
      try discriminate.
    apply IH in H as [-> Hrest]. split.
    + unfold queues_of. cbn [flat_map]. rewrite Hval, app_assoc. reflexivity.
    + intros l [<-|Hin]; [exact Hv | exact (Hrest l Hin)].
Qed.

(** X11. When [process] returns, [loadQueues] is what it held before
    followed by the queues the load-queue document asks for, each name as
    many times as its number says (none for zero or a negative number);
    every name of the document is one [verifyKey] accepts; and
    [chunksPerShard] is the number of queues, which is at least 1. *)
Theorem process_loadQueues_follow_the_document s s' :
  process E s = Return s' ->
  fromjson E (loadQueueJson s) = Some (loadQueueBson s') /\
  loadQueues s' = loadQueues s ++ queues_of (loadQueueBson s') /\
  (forall load, In load (loadQueueBson s') ->
                verifyKey E (fieldName load) = true) /\
  chunksPerShard s' = length (loadQueues s') /\
  1 <= chunksPerShard s'.
Proof.
  intros H.
  apply process_Return_inv in H
    as [[keys scan] [[lq lqs] [threads' [_ [Hq [_ H]]]]]].
  apply processConnection_Return_inv in H as [_ [_ [_ [-> [-> [-> _]]]]]].
  unfold processLoadQueues in Hq.
  destruct (fromjson E (loadQueueJson s)) as [bson|]; [|discriminate].
  cbn [lift bind] in Hq.
  apply bind_Return_inv in Hq as [qs [Hscan Hq]].
  destruct (Nat.ltb_spec (length qs) 1); [discriminate|].
  injection Hq as <- <-.
  apply scanLoadQueues_Return_inv in Hscan as [-> Hver].
  repeat split; auto.
Qed.

Lemma scanLoadQueues_accepts : forall loads queues,
  Forall (fun load => verifyKey E (fieldName load) = true /\
                      exists n, value load = NumberInt n) loads ->
  scanLoadQueues E loads queues = Return (queues ++ queues_of loads).
Proof.
  induction loads as [|load rest IH]; intros queues Hall.
  - cbn. rewrite app_nil_r. reflexivity.
  - inversion Hall as [|? ? [Hv [n Hn]] Hrest]; subst.
    cbn [scanLoadQueues]. rewrite Hv. cbn [negb].
    unfold isNumber, Int. rewrite Hn. cbn [negb bind].
    rewrite IH by exact Hrest.
    unfold queues_of. cbn [flat_map]. rewrite Hn, app_assoc. reflexivity.
Qed.

Lemma queues_of_none : forall loads,
  Forall (fun load => exists n, value load = NumberInt n /\ (n <= 0)%Z) loads ->
  queues_of loads = [].
Proof.
  induction loads as [|load rest IH]; intros Hall; [reflexivity|].
  inversion Hall as [|? ? [n [Hn Hle]] Hrest]; subst.
  unfold queues_of. cbn [flat_map]. rewrite Hn.
  fold (queues_of rest). rewrite IH by exact Hrest.
  destruct n; try lia; reflexivity.
Qed.

(** X12. A load-queue document that asks for no queue at all, because it is
    empty or because every number in it is zero or negative, ends
    [process] with the message that no load queues were created, provided
    the key was accepted and [loadQueues] held nothing before. *)
Theorem process_without_queues_is_fatal s key loads :
  processShardKey E s = Return key ->
  fromjson E (loadQueueJson s) = Some loads ->
  loadQueues s = [] ->
  Forall (fun load => verifyKey E (fieldName load) = true /\
                      exists n, value load = NumberInt n /\ (n <= 0)%Z)
         loads ->
  process E s = Exit (NoLoadQueues (loadQueueJson s)).
Proof.
  intros Hkey Hj Hempty Hall.
  unfold process, processLoadQueues. rewrite Hkey, Hj, Hempty.
  cbn [bind lift].
  rewrite scanLoadQueues_accepts.
  - rewrite queues_of_none; [reflexivity|].
    eapply Forall_impl; [|exact Hall]. intros load [_ H]. exact H.
  - eapply Forall_impl; [|exact Hall].
    intros load [Hv [n [Hn _]]]. split; [exact Hv | exists n; exact Hn].
Qed.

Lemma scanShardKeys_app : forall keys keys' st,
  scanShardKeys (keys ++ keys') st
  = bind (scanShardKeys keys st) (scanShardKeys keys').
Proof.
  induction keys as [|key rest IH]; intros keys' st; [reflexivity|].
  cbn [app scanShardKeys]. rewrite bind_assoc.
  match goal with |- bind ?m _ = bind ?m _ => destruct m end;
    cbn [bind]; auto.
Qed.

(** X13. In a sharded load, a key whose first field that is neither hashed
    nor of direction 1 or -1 is a 32-bit integer ends [process] with the
    message that names that field. *)
Theorem process_names_the_first_unknown_direction s good bad rest n :
  sharded s = true -> shardKeyJson s <> EmptyString ->
  fromjson E (shardKeyJson s) = Some (good ++ bad :: rest) ->
  forallb field_ok good = true ->
  value bad = NumberInt n -> n <> 1%Z -> n <> (-1)%Z ->
  process E s = Exit (UnknownKeyValue bad).
Proof.
  intros Hs Hne Hj Hgood Hbad H1 H2.
  unfold process.
  rewrite (processShardKey_sharded E s Hs Hne Hj), scanShardKeys_app.
  destruct (scanShardKeys_accepts good
              (mkKeyScan (hashed s) (shardKeyFields s) false
                         size_t_minus_one 0) Hgood) as [st1 [-> _]].
  cbn [bind scanShardKeys]. unfold valueStringData, Int. rewrite Hbad.
  cbn [String.eqb bind].
  destruct (Z.eqb_spec n 1); [contradiction|].
  destruct (Z.eqb_spec n (-1)); [contradiction|].
  reflexivity.
Qed.

(** X14. On a machine with fewer than 2^30 hardware threads, the thread
    count [process] returns with is at least 1, with one exception: when
    the machine reports a hardware concurrency of 0 and the configured
    count is 0, [process] returns with 0 threads. *)
Theorem process_thread_count_is_positive_unless_hardware_unknown s s' :
  (0 <= hardware_concurrency E < 2 ^ 30)%Z ->
  (- 2 ^ 31 <= threads s < 2 ^ 31)%Z ->
  process E s = Return s' ->
  (1 <= threads s')%Z \/
  (hardware_concurrency E = 0 /\ threads s = 0 /\ threads s' = 0)%Z.
Proof.
  intros Hhc Ht H.
  apply process_Return_inv in H
    as [[keys scan] [[lq lqs] [threads' [_ [_ [Hr H]]]]]].
  apply processConnection_Return_inv in H
    as [_ [_ [_ [_ [_ [_ [Hth _]]]]]]].
  rewrite (resolveThreads_as_specified E Hhc Ht) in Hr.
  unfold threads_as_specified in Hr.
  destruct (Z.eqb_spec (threads s) 0).
  - assert (threads' = (2 * hardware_concurrency E)%Z) by congruence. lia.
  - destruct (Z.ltb_spec (threads s) 0).
    + destruct (Z.ltb_spec (hardware_concurrency E - Z.abs (threads s)) 1);
        [discriminate|].
      assert (threads' = (hardware_concurrency E - Z.abs (threads s))%Z)
        by congruence.
      lia.
    + assert (threads' = threads s) by congruence. lia.
Qed.

(** X15. When [process] returns, [connstr] begins with the driver's
    [uriStart]: it is the configured text, unchanged, if that began with
    [uriStart] already, and [uriStart] followed by the configured text
    otherwise; and it is a text the driver's parser accepted. *)
Theorem process_connstr_begins_with_uriStart s s' :
  process E s = Return s' ->
  substring 0 (String.length (uriStart E)) (connstr s') = uriStart E /\
  connstr s'
  = (if String.eqb (substring 0 (String.length (uriStart E)) (connstr s))
                   (uriStart E)
     then connstr s
     else String.append (uriStart E) (connstr s)) /\
  ConnectionString_parse E (connstr s') = EmptyString.
Proof.
  intros H.
  apply process_Return_inv in H
    as [[keys scan] [[lq lqs] [threads' [_ [_ [_ H]]]]]].
  apply processConnection_Return_inv in H
    as [_ [_ [_ [_ [_ [_ [_ [Hparse Hc]]]]]]]].
  split; [|split; [exact Hc | exact Hparse]].
  rewrite Hc.
  destruct (String.eqb (substring 0 (String.length (uriStart E)) (connstr s))
                       (uriStart E)) eqn:Hpre.
  - apply String.eqb_eq. exact Hpre.
  - apply substring_prefix.
Qed.

End SettingsMore.

Lemma process_indexPos_id_witness :
  exists s',
    Settings.process (Samples.env 4) (Samples.settings "{_id:1}" 0 true)
      = Return s' /\
    Settings.indexPos_id s' = 0%Z.
Proof.
  eexists. split; [reflexivity|].
  refine (eq_trans (@process_indexPos_id_is_first_id_field
                      (Samples.env 4) (Samples.settings "{_id:1}" 0 true)
                      _ _) _);
    reflexivity.
Defined.

Lemma process_loadQueues_witness :
  exists s',
    Settings.process (Samples.env 4) (Samples.settings "{_id:1}" 0 true)
      = Return s' /\
    Settings.loadQueues s' = ["ram"%string] /\
    Settings.chunksPerShard s' = 1.
Proof.
  eexists. split; [reflexivity|].
  destruct (@process_loadQueues_follow_the_document
              (Samples.env 4) (Samples.settings "{_id:1}" 0 true) _ eq_refl)
    as [_ [H1 [_ [H2 _]]]].
  split; [exact H1 | exact H2].
Defined.

Lemma process_without_queues_witness :
  Settings.process (MoreSamples.env 4) (MoreSamples.settings "{region:1}" "{}")
  = Exit (Settings.NoLoadQueues "{}").
Proof.
  eapply (@process_without_queues_is_fatal
            (MoreSamples.env 4) (MoreSamples.settings "{region:1}" "{}")).
  - reflexivity.
  - reflexivity.
  - reflexivity.
  - constructor.
Defined.

Lemma process_unknown_direction_witness :
  Settings.process (MoreSamples.env 4)
                   (MoreSamples.settings "{region:1,zone:2}" "{ram:1}")
  = Exit (Settings.UnknownKeyValue MoreSamples.zoneElement).
Proof.
  apply (@process_names_the_first_unknown_direction
           (MoreSamples.env 4)
           (MoreSamples.settings "{region:1,zone:2}" "{ram:1}")
           Samples.regionKey MoreSamples.zoneElement [] 2).
  - reflexivity.
  - discriminate.
  - reflexivity.
  - reflexivity.
  - reflexivity.
  - discriminate.
  - discriminate.
Defined.

Lemma process_thread_count_witness :
  exists s',
    Settings.process (Samples.env 4) (Samples.settings "{_id:1}" (-1) true)
      = Return s' /\
    ((1 <= Settings.threads s')%Z \/
     (Settings.hardware_concurrency (Samples.env 4) = 0 /\
      Settings.threads (Samples.settings "{_id:1}" (-1) true) = 0 /\
      Settings.threads s' = 0)%Z).
Proof.
  eexists. split; [reflexivity|].
  apply (@process_thread_count_is_positive_unless_hardware_unknown
           (Samples.env 4) (Samples.settings "{_id:1}" (-1) true)).
  - simpl; lia.
  - simpl; lia.
  - reflexivity.
Defined.

Lemma process_connstr_witness :
  (exists s',
     Settings.process (Samples.env 4)
                      (FurtherSamples.settingsConnectingTo "mongodb://h:1")
       = Return s' /\
     Settings.connstr s' = "mongodb://h:1"%string) /\
  (exists s',
     Settings.process (Samples.env 4)
                      (FurtherSamples.settingsConnectingTo "h:1")
       = Return s' /\
     Settings.connstr s' = "mongodb://h:1"%string).
Proof.
  split; eexists; (split; [reflexivity|]).
  - refine (proj1 (proj2 (@process_connstr_begins_with_uriStart
                            (Samples.env 4)
                            (FurtherSamples.settingsConnectingTo
                               "mongodb://h:1") _ _))).
    reflexivity.
  - refine (proj1 (proj2 (@process_connstr_begins_with_uriStart
                            (Samples.env 4)
                            (FurtherSamples.settingsConnectingTo "h:1")
                            _ _))).
    reflexivity.
Defined.

(** ** What [setupLoad] does, and in which order *)

Section LoaderMore.

Import Loader LoaderWords.

Ltac returns_case :=
  cbn;
  split;
    [split;
       [intros H; try discriminate H; repeat split; auto;
        try discriminate; intros; split; congruence
       |intros [H1 [H2 [H3 H4]]];
        try discriminate; try contradiction; try reflexivity;
        destruct (H4 eq_refl); try discriminate; congruence]
    |intros H; try discriminate H; reflexivity].

(** X16. [setupLoad] returns exactly when the cluster is sharded, the
    connection was made, the balancer stopped if it was to be stopped,
    and, for a sharded load, there is at least one chunk per shard and the
    collection was sharded. On a cluster that is not sharded it does
    nothing at all before it ends. *)
Theorem setupLoad_returns_exactly_when (C : Cluster) (s : Settings.t) :
  (snd (setupLoad C s) = Return tt <->
   isSharded C = true /\
   connect_error C = EmptyString /\
   Settings.stopBalancer s && stopBalancerWait C = false /\
   (Settings.sharded s = true ->
    Settings.chunksPerShard s <> 0 /\ shardCollection C = true)) /\
  (isSharded C = false -> fst (setupLoad C s) = []).
Proof.
  unfold setupLoad.
  destruct (Settings.sharded s) eqn:Hsh, (isSharded C) eqn:Hcl;
    try solve [returns_case];
    destruct (String.eqb_spec (connect_error C) EmptyString);
    try solve [returns_case];
    destruct (Settings.stopBalancer s) eqn:Hsb,
             (stopBalancerWait C) eqn:Hsw;
    try solve [returns_case];
    destruct (Nat.eqb_spec (Settings.chunksPerShard s) 0);
    try solve [returns_case];
    destruct (Settings.hashed s) eqn:Hh, (shardCollection C) eqn:Hsc;
    returns_case.
Qed.

Ltac drops_case :=
  cbn;
  split;
    [reflexivity
    |intros [H|H]; try discriminate H; intros a Ha; cbn in Ha |- *; tauto].

(** X17. The drop the settings ask for is carried out as soon as the
    cluster is known to be sharded and the connection is made: at most one
    drop, the database before the collection before the indexes. So when
    [setupLoad] ends because the balancer did not stop or because the
    collection could not be sharded, the drop has been carried out
    already. *)
Theorem setupLoad_drops_before_later_failures (C : Cluster) (s : Settings.t) :
  filter is_drop (fst (setupLoad C s))
  = (if isSharded C && String.eqb (connect_error C) EmptyString
     then requested_drop s else []) /\
  (snd (setupLoad C s) = Exit UnableToStopBalancer \/
   snd (setupLoad C s) = Exit ShardingCollectionFailed ->
   incl (requested_drop s) (fst (setupLoad C s))).
Proof.
  unfold setupLoad, requested_drop.
  destruct (Settings.sharded s) eqn:Hsh, (isSharded C) eqn:Hcl;
    try solve [drops_case];
    destruct (String.eqb_spec (connect_error C) EmptyString);
    destruct (Settings.stopBalancer s) eqn:Hsb;
    try solve [drops_case];
    destruct (Settings.dropDb s) eqn:Hd1, (Settings.dropColl s) eqn:Hd2,
             (Settings.dropIndexes s) eqn:Hd3,
             (stopBalancerWait C) eqn:Hsw;
    try solve [drops_case];
    destruct (Nat.eqb_spec (Settings.chunksPerShard s) 0);
    destruct (enableSharding C) eqn:Hen;
    destruct (Z.eqb_spec (enableSharding_info_ok C) 0);
    try solve [drops_case];
    destruct (Settings.hashed s) eqn:Hh, (shardCollection C) eqn:Hsc;
    drops_case.
Qed.

End LoaderMore.

(** ** [process] followed by [setupLoad] *)

Section ProcessThenSetup.

Import Loader.

Variable E : Settings.Env.

Lemma processConnection_balancer s keys scan lq lqs threads' s' :
  Settings.processConnection E s (keys, scan) (lq, lqs) threads' = Return s' ->
  Settings.stopBalancer s'
  = (if Settings.directLoad (Settings.endPointSettings s) then true
     else Settings.stopBalancer s) /\
  Settings.chunksPerShard s' = length lqs.
Proof.
  unfold Settings.processConnection.
  destruct (negb _); [discriminate|].
  intros H; injection H as <-. split; reflexivity.
Qed.

Lemma setupLoad_balancer_first (C : Cluster) (s : Settings.t) :
  isSharded C = true ->
  (hd_error (fst (setupLoad C s)) = Some BalancerStop <->
   Settings.stopBalancer s = true) /\
  (Settings.chunksPerShard s <> 0 -> snd (setupLoad C s) <> AssertFails).
Proof.
  intros Hcl. unfold setupLoad. rewrite Hcl.
  destruct (Settings.sharded s) eqn:Hsh;
    destruct (String.eqb_spec (connect_error C) EmptyString);
    destruct (Settings.stopBalancer s) eqn:Hsb;
    try solve [cbn; split; [split; intros; congruence | discriminate]];
    destruct (Settings.dropDb s) eqn:Hd1, (Settings.dropColl s) eqn:Hd2,
             (Settings.dropIndexes s) eqn:Hd3,
             (stopBalancerWait C) eqn:Hsw;
    try solve [cbn; split; [split; intros; congruence | discriminate]];
    destruct (Nat.eqb_spec (Settings.chunksPerShard s) 0);
    try solve [cbn; split; [split; intros; congruence | congruence]];
    destruct (Settings.hashed s) eqn:Hh, (shardCollection C) eqn:Hsc;
    cbn; (split; [split; intros; congruence | discriminate]).
Qed.

(** X18. Settings that [process] has returned never trip the assertion on
    [chunksPerShard] in [setupLoad]. And on a sharded cluster [setupLoad]
    begins by stopping the balancer exactly when [stopBalancer] was
    configured or the load is a direct load. *)
Theorem setupLoad_after_process
    (C : Cluster) (s s' : Settings.t) :
  Settings.process E s = Return s' ->
  snd (setupLoad C s') <> AssertFails /\
  (isSharded C = true ->
   (hd_error (fst (setupLoad C s')) = Some BalancerStop <->
    Settings.stopBalancer s = true \/
    Settings.directLoad (Settings.endPointSettings s) = true)).
Proof.
  intros H.
  apply process_Return_inv in H
    as [[keys scan] [[lq lqs] [threads' [_ [Hq [_ H]]]]]].
  apply processConnection_balancer in H as [Hsb Hch].
  assert (Hpos : Settings.chunksPerShard s' <> 0).
  { unfold Settings.processLoadQueues in Hq.
    destruct (Settings.fromjson E (Settings.loadQueueJson s)) as [bson|];
      [|discriminate].
    cbn [Settings.lift bind] in Hq.
    apply bind_Return_inv in Hq as [qs [_ Hq]].
    destruct (Nat.ltb_spec (length qs) 1); [discriminate|].
    injection Hq as _ <-. lia. }
  split.
  - destruct (isSharded C) eqn:Hcl.
    + exact (proj2 (@setupLoad_balancer_first C s' Hcl) Hpos).
    + unfold setupLoad. rewrite Hcl.
      destruct (Settings.sharded s'); discriminate.
  - intros Hcl.
    rewrite (proj1 (@setupLoad_balancer_first C s' Hcl)), Hsb.
    destruct (Settings.directLoad (Settings.endPointSettings s)),
             (Settings.stopBalancer s); intuition discriminate.
Qed.

End ProcessThenSetup.

Lemma setupLoad_after_process_witness :
  exists s',
    Settings.process (Samples.env 4) (Samples.settings "{region:1}" 4 false)
      = Return s' /\
    snd (Loader.setupLoad Samples.clusterEnableShardingFails s')
      <> AssertFails.
Proof.
  eexists. split; [reflexivity|].
  refine (proj1 (@setupLoad_after_process (Samples.env 4)
                   Samples.clusterEnableShardingFails
                   (Samples.settings "{region:1}" 4 false) _ _)).
  reflexivity.
Defined.

(** ** The finalize phase *)

Section FinalizeFacts.

Import Finalize.

Variable Dispatch : Type.
Implicit Types (s : system Dispatch) (th : pc Dispatch)
         (wf : list (pointer Dispatch)).

Lemma taken_app : forall l l' : list (event Dispatch),
  taken (l ++ l') = taken l ++ taken l'.
Proof.
  induction l as [|[i p|i d|i d] l IH]; intros l'; cbn [app taken];
    rewrite ?IH; reflexivity.
Qed.

Lemma prepared_app : forall l l' : list (event Dispatch),
  prepared (l ++ l') = prepared l ++ prepared l'.
Proof.
  induction l as [|[i p|i d|i d] l IH]; intros l'; cbn [app prepared];
    rewrite ?IH; reflexivity.
Qed.

Lemma loaded_app : forall l l' : list (event Dispatch),
  loaded (l ++ l') = loaded l ++ loaded l'.
Proof.
  induction l as [|[i p|i d|i d] l IH]; intros l'; cbn [app loaded];
    rewrite ?IH; reflexivity.
Qed.

Lemma targets_app : forall ps ps' : list (pointer Dispatch),
  targets (ps ++ ps') = targets ps ++ targets ps'.
Proof.
  induction ps as [|[d|] ps IH]; intros ps'; cbn [app targets];
    rewrite ?IH; reflexivity.
Qed.

Lemma targets_map_Some : forall ds : list Dispatch,
  targets (map Some ds) = ds.
Proof.
  induction ds as [|d ds IH]; cbn [map targets]; rewrite ?IH; reflexivity.
Qed.

Lemma step_keeps_order i s :
  taken (log (step i s)) ++ _wf (step i s) = taken (log s) ++ _wf s.
Proof.
  unfold step. destruct (nth_error (threads s) i) as [th|]; [|reflexivity].
  destruct th as [|d|d|]; cbn [thread_step log _wf];
    try (rewrite taken_app; cbn [taken]; rewrite ?app_nil_r; reflexivity).
  unfold getNextPrep. destruct (_wf s) as [|p rest]; cbn [log _wf].
  - rewrite !app_nil_r. reflexivity.
  - rewrite taken_app. cbn [taken]. rewrite <- app_assoc. reflexivity.
Qed.

Lemma run_keeps_order : forall schedule s,
  taken (log (run schedule s)) ++ _wf (run schedule s)
  = taken (log s) ++ _wf s.
Proof.
  induction schedule as [|i schedule IH]; intros s; [reflexivity|].
  cbn [run fold_left]. fold (run schedule (step i s)).
  rewrite IH. apply step_keeps_order.
Qed.

(** X19. Whatever the number of finalizer threads and the order in which
    they run, the pointers are taken off the waterfall one by one from the
    front: at every moment the pointers taken so far, in the order in
    which they were taken, followed by those still in [_wf], are the
    waterfall. No pointer is handed out twice and none is skipped. *)
Theorem Finalize_waterfall_is_handed_out_in_order
    wf (finalizeThreads : nat) (schedule : list nat) :
  let s := run schedule (init wf finalizeThreads) in
  taken (log s) ++ _wf s = wf.
Proof.
  intros s. subst s. rewrite run_keeps_order. reflexivity.
Qed.

Lemma thread_step_accounts i th wf wf' th' evs :
  thread_step i th wf = (wf', th', evs) ->
  Permutation (targets (taken evs) ++ holding th) (loaded evs ++ holding th')
  /\
  Permutation (prepared evs ++ about_to_load th)
              (loaded evs ++ about_to_load th').
Proof.
  destruct th as [|d|d|]; cbn [thread_step].
  - unfold getNextPrep. destruct wf as [|[d|] rest]; intros H;
      injection H as <- <- <-; cbn; split; reflexivity.
  - intros H; injection H as <- <- <-. cbn. split; reflexivity.
  - intros H; injection H as <- <- <-. cbn. split; reflexivity.
  - intros H; injection H as <- <- <-. cbn. split; reflexivity.
Qed.

Lemma step_accounts i s :
  (Permutation (targets (taken (log s)))
               (loaded (log s) ++ concat (map (@holding Dispatch) (threads s)))
   ->
   Permutation (targets (taken (log (step i s))))
               (loaded (log (step i s))
                ++ concat (map (@holding Dispatch) (threads (step i s)))))
  /\
  (Permutation (prepared (log s))
               (loaded (log s)
                ++ concat (map (@about_to_load Dispatch) (threads s)))
   ->
   Permutation (prepared (log (step i s)))
               (loaded (log (step i s))
                ++ concat (map (@about_to_load Dispatch) (threads (step i s))))).
Proof.
  unfold step. destruct (nth_error (threads s) i) as [th|] eqn:Hi;
    [|split; auto].
  destruct (thread_step i th (_wf s)) as [[wf' th'] evs] eqn:Hts.
  cbn [log threads].
  destruct (thread_step_accounts _ _ _ Hts) as [Ha Hb].
  split; intros H.
  - destruct (concat_map_set_nth (@holding Dispatch) (threads s) i th' Hi)
      as [others [H1 H2]].
    rewrite taken_app, targets_app, loaded_app, H, H1, H2.
    rewrite <- !app_assoc. apply Permutation_app_head.
    transitivity ((targets (taken evs) ++ holding th) ++ others).
    + rewrite <- app_assoc.
      rewrite (Permutation_app_comm (targets (taken evs))
                                    (holding th ++ others)).
      rewrite <- app_assoc. reflexivity.
    + rewrite Ha, <- app_assoc. reflexivity.
  - destruct (concat_map_set_nth (@about_to_load Dispatch) (threads s) i th' Hi)
      as [others [H1 H2]].
    rewrite prepared_app, loaded_app, H, H1, H2.
    rewrite <- !app_assoc. apply Permutation_app_head.
    transitivity ((prepared evs ++ about_to_load th) ++ others).
    + rewrite <- app_assoc.
      rewrite (Permutation_app_comm (prepared evs)
                                    (about_to_load th ++ others)).
      rewrite <- app_assoc. reflexivity.
    + rewrite Hb, <- app_assoc. reflexivity.
Qed.

Lemma concat_map_nil_repeat {A : Type} (f : pc Dispatch -> list A) n :
  f AtGetNextPrep = [] -> concat (map f (repeat AtGetNextPrep n)) = [].
Proof.
  intros Hf. induction n as [|n IH]; [reflexivity|].
  cbn [repeat map concat]. rewrite Hf, IH. reflexivity.
Qed.

(** What X20 states, of one state. *)
Let accounted s : Prop :=
  Permutation (targets (taken (log s)))
              (loaded (log s) ++ concat (map (@holding Dispatch) (threads s)))
  /\
  Permutation (prepared (log s))
              (loaded (log s)
               ++ concat (map (@about_to_load Dispatch) (threads s))).

Lemma init_accounted wf n : accounted (init wf n).
Proof.
  unfold accounted.
  cbn [init log threads taken targets loaded prepared app].
  rewrite !concat_map_nil_repeat by reflexivity. split; reflexivity.
Qed.

Lemma run_accounted : forall schedule s,
  accounted s -> accounted (run schedule s).
Proof.
  induction schedule as [|i schedule IH]; intros s H0; [exact H0|].
  cbn [run fold_left]. apply IH.
  destruct (step_accounts i s) as [Ha Hb]. destruct H0. split; auto.
Qed.

(** X20. At every moment of every run, each dispatch taken off the
    waterfall has been loaded or is held by the thread that took it, and
    each dispatch prepared has been loaded or is about to be loaded by the
    thread that prepared it; both counted with multiplicity. So no
    dispatch is loaded that was not taken and prepared before, and none is
    loaded more often than it was taken. *)
Theorem Finalize_every_dispatch_is_accounted_for
    wf (finalizeThreads : nat) (schedule : list nat) :
  let s := run schedule (init wf finalizeThreads) in
  Permutation (targets (taken (log s)))
              (loaded (log s) ++ concat (map (@holding Dispatch) (threads s)))
  /\
  Permutation (prepared (log s))
              (loaded (log s)
               ++ concat (map (@about_to_load Dispatch) (threads s))).
Proof.
  intros s. exact (run_accounted schedule (init_accounted wf finalizeThreads)).
Qed.

Lemma In_set_nth {A : Type} (x y : A) : forall l i,
  In x (WaitQueue.set_nth i y l) -> x = y \/ In x l.
Proof.
  induction l as [|a l IH]; intros i H;
    [destruct i; cbn in H; contradiction|].
  destruct i as [|i]; cbn [WaitQueue.set_nth In] in H |- *.
  - destruct H; auto.
  - destruct H as [H|H]; auto. apply IH in H. tauto.
Qed.

(** A thread leaves the loop only on a null pointer: [_wf] was empty, or
    the pointer taken off it was null. *)
Let returned_for_a_reason s : Prop :=
  In Returned (threads s) -> _wf s = [] \/ In None (taken (log s)).

Lemma step_returned_for_a_reason i s :
  returned_for_a_reason s -> returned_for_a_reason (step i s).
Proof.
  unfold returned_for_a_reason, step. intros H.
  destruct (nth_error (threads s) i) as [th|] eqn:Hi; [|exact H].
  assert (Hin : In th (threads s)) by (eapply nth_error_In; exact Hi).
  destruct th as [|d|d|]; cbn [thread_step threads _wf log].
  - unfold getNextPrep. destruct (_wf s) as [|[d|] rest] eqn:Hwf;
      cbn [threads _wf log]; intros Hr.
    + left. reflexivity.
    + apply In_set_nth in Hr as [Hr|Hr]; [discriminate|].
      destruct (H Hr) as [H1|H1]; [discriminate|].
      right. rewrite taken_app. apply in_or_app. left. exact H1.
    + right. rewrite taken_app. apply in_or_app. right. left. reflexivity.
  - intros Hr. apply In_set_nth in Hr as [Hr|Hr]; [discriminate|].
    destruct (H Hr) as [H1|H1]; [left; exact H1|].
    right. rewrite taken_app. apply in_or_app. left. exact H1.
  - intros Hr. apply In_set_nth in Hr as [Hr|Hr]; [discriminate|].
    destruct (H Hr) as [H1|H1]; [left; exact H1|].
    right. rewrite taken_app. apply in_or_app. left. exact H1.
  - intros _. destruct (H Hin) as [H1|H1]; [left; exact H1|].
    right. rewrite app_nil_r. exact H1.
Qed.

Lemma run_returned_for_a_reason : forall schedule s,
  returned_for_a_reason s -> returned_for_a_reason (run schedule s).
Proof.
  induction schedule as [|i schedule IH]; intros s H; [exact H|].
  cbn [run fold_left]. apply IH, step_returned_for_a_reason, H.
Qed.

Lemma concat_map_all_returned {A : Type} (f : pc Dispatch -> list A) :
  f Returned = [] ->
  forall ths, Forall (fun th => th = Returned) ths -> concat (map f ths) = [].
Proof.
  intros Hf. induction ths as [|th ths IH]; intros Hall; [reflexivity|].
  inversion Hall as [|? ? -> Hrest]; subst.
  cbn [map concat]. rewrite Hf, IH by exact Hrest. reflexivity.
Qed.

(** X21. Over a waterfall without null pointers and with at least one
    finalizer thread: once every thread has left [threadPrepQueue], the
    waterfall is empty, its dispatches were taken in waterfall order, and
    every one of them has been prepared exactly once and loaded exactly
    once. *)
Theorem Finalize_all_returned_means_all_loaded
    (waterfall : list Dispatch) (finalizeThreads : nat) (schedule : list nat) :
  let s := run schedule (init (map Some waterfall) finalizeThreads) in
  0 < finalizeThreads ->
  Forall (fun th => th = Returned) (threads s) ->
  _wf s = [] /\
  taken (log s) = map Some waterfall /\
  Permutation (prepared (log s)) waterfall /\
  Permutation (loaded (log s)) waterfall.
Proof.
  intros s HT Hall.
  pose proof (run_keeps_order schedule (init (map Some waterfall) finalizeThreads))
    as Hord.
  fold s in Hord. cbn [init log _wf taken app] in Hord.
  assert (Hlen : forall sch (s0 : system Dispatch),
            length (threads (run sch s0)) = length (threads s0)).
  { induction sch as [|i sch IH]; intros s0; [reflexivity|].
    cbn [run fold_left]. fold (run sch (step i s0)). rewrite IH.
    unfold step. destruct (nth_error (threads s0) i) as [th|]; [|reflexivity].
    destruct (thread_step i th (_wf s0)) as [[wf' th'] evs]. cbn [threads].
    clear. revert i. induction (threads s0) as [|a l IHl]; intros [|i];
      cbn [WaitQueue.set_nth length]; auto. }
  assert (Hne : In Returned (threads s)).
  { specialize (Hlen schedule (init (map Some waterfall) finalizeThreads)).
    fold s in Hlen. cbn [init threads] in Hlen. rewrite repeat_length in Hlen.
    destruct (threads s) as [|th ths]; [simpl in Hlen; lia|].
    inversion Hall; subst. left. reflexivity. }
  assert (Hr : returned_for_a_reason s).
  { apply run_returned_for_a_reason. intros Hin.
    cbn [init threads] in Hin. apply repeat_spec in Hin. discriminate. }
  assert (Hwf : _wf s = []).
  { destruct (Hr Hne) as [H|H]; [exact H|].
    assert (Hin : In None (map Some waterfall)).
    { rewrite <- Hord. apply in_or_app. left. exact H. }
    apply in_map_iff in Hin as [d [Hd _]]. discriminate. }
  rewrite Hwf, app_nil_r in Hord.
  destruct (run_accounted schedule
              (init_accounted (map Some waterfall) finalizeThreads))
    as [Ha Hb].
  fold s in Ha, Hb.
  rewrite Hord, targets_map_Some in Ha.
  rewrite (concat_map_all_returned (@holding Dispatch) eq_refl Hall),
    app_nil_r in Ha.
  rewrite (concat_map_all_returned (@about_to_load Dispatch) eq_refl Hall),
    app_nil_r in Hb.
  split; [exact Hwf|]. split; [exact Hord|]. split.
  - rewrite Hb. symmetry. exact Ha.
  - symmetry. exact Ha.
Qed.

Lemma list_sum_set_nth (w : pc Dispatch -> nat) : forall l i x y,
  nth_error l i = Some x ->
  list_sum (map w (WaitQueue.set_nth i y l)) + w x
  = list_sum (map w l) + w y.
Proof.
  induction l as [|a l IH]; intros i x y Hi; [destruct i; discriminate|].
  destruct i as [|i]; cbn [nth_error] in Hi;
    simpl.
  - injection Hi as ->. lia.
  - specialize (IH i x y Hi). lia.
Qed.

Lemma step_work_left i s :
  work_left (step i s) + (if active i s then 1 else 0) <= work_left s.
Proof.
  unfold work_left, active, step.
  destruct (nth_error (threads s) i) as [th|] eqn:Hi; [|lia].
  destruct (thread_step i th (_wf s)) as [[wf' th'] evs] eqn:Hts.
  cbn [_wf threads].
  pose proof (list_sum_set_nth (@weight Dispatch) (threads s) i th' Hi) as Hsum.
  destruct th as [|d|d|]; cbn [thread_step] in Hts.
  - unfold getNextPrep in Hts.
    destruct (_wf s) as [|[d|] rest]; injection Hts as <- <- <-;
      cbn [weight length] in *; lia.
  - injection Hts as <- <- <-. cbn [weight] in *. lia.
  - injection Hts as <- <- <-. cbn [weight] in *. lia.
  - injection Hts as <- <- <-. cbn [weight] in *. lia.
Qed.

Lemma run_work_left : forall schedule s,
  work_left (run schedule s) + active_steps schedule s <= work_left s.
Proof.
  induction schedule as [|i schedule IH]; intros s.
  - cbn. lia.
  - cbn [run fold_left active_steps]. fold (run schedule (step i s)).
    specialize (IH (step i s)). pose proof (step_work_left i s). lia.
Qed.

(** X22. The finalize phase cannot go on for ever: in any run of
    [finalizeThreads] threads over a waterfall of [n] pointers, at most
    [3 * n + finalizeThreads] steps are steps of a thread that has not
    left [threadPrepQueue] yet. *)
Theorem Finalize_run_is_bounded
    wf (finalizeThreads : nat) (schedule : list nat) :
  active_steps schedule (init wf finalizeThreads)
  <= 3 * length wf + finalizeThreads.
Proof.
  pose proof (run_work_left schedule (init wf finalizeThreads)) as H.
  assert (H0 : work_left (init wf finalizeThreads)
               = 3 * length wf + finalizeThreads).
  { unfold work_left. cbn [init _wf threads].
    assert (Hs : forall n,
              list_sum (map (@weight Dispatch) (repeat AtGetNextPrep n)) = n).
    { induction n as [|n IH]; [reflexivity|]. simpl in *. rewrite IH.
      reflexivity. }
    rewrite Hs. reflexivity. }
  lia.
Qed.

End FinalizeFacts.

Lemma Finalize_all_returned_witness :
  let s := Finalize.run [0; 1; 0; 1; 0; 1; 0; 1]
             (Finalize.init (map Some [10; 20]) 2) in
  Finalize._wf s = [] /\
  Finalize.taken (Finalize.log s) = map Some [10; 20] /\
  Permutation (Finalize.prepared (Finalize.log s)) [10; 20] /\
  Permutation (Finalize.loaded (Finalize.log s)) [10; 20].
Proof.
  apply (@Finalize_all_returned_means_all_loaded nat [10; 20] 2
           [0; 1; 0; 1; 0; 1; 0; 1]).
  - lia.
  - repeat constructor.
Defined.

Lemma setupLoad_drops_witness :
  exists s',
    Settings.process (MoreSamples.env 4)
                     (MoreSamples.settings "{region:1}" "{ram:1}")
      = Return s' /\
    snd (Loader.setupLoad MoreSamples.clusterCannotShardCollection s')
      = Exit Loader.ShardingCollectionFailed /\
    In (Loader.DropDatabase "test")
       (fst (Loader.setupLoad MoreSamples.clusterCannotShardCollection s')).
Proof.
  eexists. split; [reflexivity|]. split; [reflexivity|].
  apply (proj2 (setupLoad_drops_before_later_failures
                  MoreSamples.clusterCannotShardCollection _)).
  - right. reflexivity.
  - left. reflexivity.
Defined.

(** ** From the settings to the finalize pool *)

(** X23. The pool of the finalize phase has as many workers as [process]
    resolved threads, whenever that count is at least 1. When [process]
    returned with 0 threads, which it does on a machine that reports a
    hardware concurrency of 0 for a configured count of 0, the pool's
    constructor does not stop before 2^64 workers. *)
Theorem finalize_pool_has_the_resolved_thread_count
    (E : Settings.Env) (s s' : Settings.t) (fuel : nat) :
  (0 <= Settings.hardware_concurrency E < 2 ^ 30)%Z ->
  (- 2 ^ 31 <= Settings.threads s < 2 ^ 31)%Z ->
  Settings.process E s = Return s' ->
  ((1 <= Settings.threads s')%Z ->
   (Settings.threads s' <= Z.of_nat fuel)%Z ->
   LoaderRun.tpFinalize fuel s' = Some (Z.to_nat (Settings.threads s'))) /\
  (Settings.hardware_concurrency E = 0%Z -> Settings.threads s = 0%Z ->
   (Z.of_nat fuel < WaitQueue.size_t_modulus)%Z ->
   LoaderRun.tpFinalize fuel s' = None).
Proof.
  intros Hhc Ht H.
  assert (Hrange : (0 <= Settings.threads s' < 2 ^ 31)%Z
                   /\ (Settings.hardware_concurrency E = 0%Z ->
                       Settings.threads s = 0%Z ->
                       Settings.threads s' = 0%Z)).
  { apply process_Return_inv in H
      as [[keys scan] [[lq lqs] [threads' [_ [_ [Hr H]]]]]].
    apply processConnection_Return_inv in H
      as [_ [_ [_ [_ [_ [_ [Hth _]]]]]]].
    rewrite (resolveThreads_as_specified E Hhc Ht) in Hr.
    unfold Settings.threads_as_specified in Hr.
    change (2 ^ 30)%Z with 1073741824%Z in *.
    change (2 ^ 31)%Z with 2147483648%Z in *.
    destruct (Z.eqb_spec (Settings.threads s) 0).
    - assert (threads' = (2 * Settings.hardware_concurrency E)%Z)
        by congruence.
      split; [lia | intros; lia].
    - destruct (Z.ltb_spec (Settings.threads s) 0).
      + destruct (Z.ltb_spec (Settings.hardware_concurrency E
                              - Z.abs (Settings.threads s)) 1);
          [discriminate|].
        assert (threads' = (Settings.hardware_concurrency E
                            - Z.abs (Settings.threads s))%Z) by congruence.
        split; [lia | intros; lia].
      + assert (threads' = Settings.threads s) by congruence.
        split; [lia | intros; lia]. }
  destruct Hrange as [Hr H0].
  assert (Hmax : LoaderRun._threadsMax s' = Settings.threads s').
  { unfold LoaderRun._threadsMax, WaitQueue.size_t_modulus.
    apply Z.mod_small.
    change (2 ^ 31)%Z with 2147483648%Z in Hr.
    change (2 ^ 64)%Z with 18446744073709551616%Z. lia. }
  unfold LoaderRun.tpFinalize. rewrite Hmax. split.
  - intros H1 Hf. rewrite spawn_counts_down.
    + destruct (Z.ltb_spec (Z.of_nat fuel) (Settings.threads s'));
        [lia | reflexivity].
    + unfold WaitQueue.size_t_modulus.
      change (2 ^ 31)%Z with 2147483648%Z in Hr.
      change (2 ^ 64)%Z with 18446744073709551616%Z. lia.
  - intros Hz1 Hz2 Hf. rewrite (H0 Hz1 Hz2).
    destruct fuel as [|fuel]; [reflexivity|].
    cbn [ThreadPool.spawn].
    change ((0 - 1) mod WaitQueue.size_t_modulus)%Z
      with (WaitQueue.size_t_modulus - 1)%Z.
    change (WaitQueue.size_t_modulus - 1 =? 0)%Z with false.
    cbv iota. rewrite spawn_counts_down
      by (unfold WaitQueue.size_t_modulus; lia).
    destruct (Z.ltb_spec (Z.of_nat fuel) (WaitQueue.size_t_modulus - 1));
      [reflexivity | lia].
Qed.

Lemma finalize_pool_witness :
  exists s',
    Settings.process (Samples.env 4) (Samples.settings "{_id:1}" (-1) true)
      = Return s' /\
    LoaderRun.tpFinalize 10 s' = Some 3.
Proof.
  eexists. split; [reflexivity|].
  refine (proj1 (@finalize_pool_has_the_resolved_thread_count
                   (Samples.env 4) (Samples.settings "{_id:1}" (-1) true)
                   _ 10 _ _ _) _ _).
  - simpl; lia.
  - simpl; lia.
  - reflexivity.
  - vm_compute. discriminate.
  - vm_compute. discriminate.
Defined.
